(** * pg_query: query normalisation (ext/pg_query/pg_query.c)

    A shallow embedding of the normalisation path of the extension:
    [const_record_walker] (collecting constant locations from the raw parse
    tree), [fill_in_constant_lengths] (re-lexing the text to find the length
    of every constant), [generate_normalized_query] (rewriting the text with
    one [?] per constant) and [pg_query_normalize] (the entry point); and
    of [pg_query_raw_parse], the other entry point.

    Conventions.
    - C [int] values are integers of [Z].  Where the code doubles the
      capacity and increments the count of the array the 32-bit wrap-around
      is written out ([int_wrap]); the other [int] values are offsets into
      the text and differences of such offsets.
    - A C string is the list of its bytes before the terminating zero byte.
    - [Assert(...)] is modelled as a check: a failed assertion ends the run
      with [Fail], as in a build with [USE_ASSERT_CHECKING].  A copy or a
      store outside the buffer it is aimed at ends the run with [Fail] as
      well, so [Ok] stands for a run that stayed inside its buffers and met
      no failed assertion, in either build.  The build in which [Assert]
      expands to nothing is modelled in [Release] below.
    - The resolver reads the text and the scan buffer at a constant location
      only once a token starts at that location or after it, which is inside
      the buffers for every scanner whose tokens lie inside the text.
    - PostgreSQL's parser, scanner and tree walker are collaborators outside
      the extension: the parser and the scanner are section variables, the
      generic walker is modelled by [raw_expression_tree_walker] below.
    - [palloc] and [repalloc] grant every request of at most [MaxAllocSize]
      bytes; running out of memory below that size is not modelled.  The
      requests that grow with the text are no larger than the scanner's own
      for its buffer, which the parser has made before it returns a tree;
      the array of constant locations is the one that can ask for more, and
      [record_constant] has that request refused. *)

From Stdlib Require Import ZArith Ascii String Lia.
From stdpp Require Import base tactics numbers option list sorting strings pretty.

Local Open Scope Z_scope.

(** ** Results of runs that can hit an assertion *)

Inductive failure :=
| Assert_loc_nonneg        (* Assert(loc >= 0), fill_in_constant_lengths *)
| Assert_len_to_wrt        (* Assert(len_to_wrt >= 0), inside the rewrite loop *)
| Assert_tail_len_to_wrt   (* Assert(len_to_wrt >= 0), after the rewrite loop *)
| Assert_n_quer_loc        (* Assert(n_quer_loc <= query_len) *)
| Fault_memcpy             (* memcpy outside the source or the result buffer *)
| Fault_store              (* norm_query[n_quer_loc++] = '?' outside the buffer *)
| Fault_clocations.        (* jstate->clocations[clocations_count] outside the array *)

Inductive result (A : Type) :=
| Ok (a : A)
| Fail (f : failure).
Arguments Ok {A} a.
Arguments Fail {A} f.

#[global] Instance result_bind : MBind result := λ A B k r,
  match r with
  | Ok a => k a
  | Fail f => Fail f
  end.

#[global] Instance result_fmap : FMap result := λ A B g r,
  match r with
  | Ok a => Ok (g a)
  | Fail f => Fail f
  end.

(** ** Data model *)

(** [struct pgssLocationLen]: start offset in the query text, and length in
    bytes or -1 to ignore. *)
Record pgssLocationLen := {
  location : Z;
  length : Z
}.

(** [struct pgssConstLocations]: [clocations] is the allocated array (one
    list element per allocated cell), [clocations_buf_size] its allocated
    length as the code tracks it, [clocations_count] the number of valid
    entries.  The loops over the first [clocations_count] cells take the
    cells there are; the collector never leaves a count beyond the array,
    since a store outside the array ends its run ([record_constant]). *)
Record pgssConstLocations := {
  clocations : list pgssLocationLen;
  clocations_buf_size : Z;
  clocations_count : Z
}.

(** 32-bit two's complement wrap-around of an [int]. *)
Definition int_wrap (z : Z) : Z := (z + 2 ^ 31) mod 2 ^ 32 - 2 ^ 31.

(** ** C strings *)

Definition NUL : ascii := Ascii.zero.

(** [strlen(s)]: the number of bytes before the first zero byte; the end of
    the list stands for the terminator of a C string. *)
Fixpoint strlen (s : list ascii) : Z :=
  match s with
  | [] => 0
  | c :: s' => if Ascii.eqb c NUL then 0 else 1 + strlen s'
  end.

(** [s[i]]; at [i = strlen s] this is the terminator. *)
Definition char_at (s : list ascii) (i : Z) : ascii :=
  if i <? 0 then NUL else default NUL (s !! Z.to_nat i).

(** A list of bytes that is the content of a C string holds no zero byte. *)
Definition cstring (s : list ascii) : Prop := Forall (λ c, c ≠ NUL) s.

(** ** comp_location and qsort *)

(** [comp_location]: comparator for sorting [pgssLocationLen] by location. *)
Definition comp_location (a b : pgssLocationLen) : Z :=
  let l := location a in
  let r := location b in
  if l <? r then -1
  else if r <? l then 1
  else 0.

(** The order that a comparator of [qsort] stands for: [a] may come before
    [b] when [cmp(a, b) <= 0]. *)
Definition cmp_le {A} (cmp : A → A → Z) : relation A := λ a b, cmp a b ≤ 0.

#[global] Instance cmp_le_dec {A} (cmp : A → A → Z) : RelDecision (cmp_le cmp) :=
  λ a b, Z_le_dec (cmp a b) 0.

(** [qsort(base, n, size, cmp)] of the C library, on the list of the [n]
    cells: a sort by [cmp].  (Which of two cells that compare equal comes
    first is left open by C; [qsort_unique] below shows that this cannot be
    observed on the cells the collector writes.) *)
Definition qsort {A} (cmp : A → A → Z) (l : list A) : list A :=
  merge_sort (cmp_le cmp) l.

(** ** The scanner *)

(** One token as [core_yylex] reports it: [yylloc] is the offset where its
    text starts, [tok_end] the offset just after its text, which is where
    flex stores a zero byte in [scanbuf] while the token is the current one.
    The token code itself is never 0 (0 is end of input), and the code of the
    extension looks at nothing else of it. *)
Record token := {
  yylloc : Z;
  tok_end : Z
}.

(** [yyextra.scanbuf] while [t] is the current token: the query text, the two
    zero bytes [scanner_init] appends, and flex's zero byte after the text of
    [t]. *)
Definition scanbuf (query : list ascii) (t : token) : list ascii :=
  <[Z.to_nat (tok_end t) := NUL]> (query ++ [NUL; NUL]).

(** The inner [for (;;)] of [fill_in_constant_lengths], for the constant at
    [loc]: [toks] are the tokens [core_yylex] has yet to return.  The result
    is the new [locs[i].length] ([None] when [tok == 0] ended the loop) and
    the tokens left in the scanner. *)
Fixpoint lex_constant (query : list ascii) (loc : Z) (toks : list token)
  : option Z * list token :=
  match toks with
  | [] => (None, [])
  | t :: toks' =>
      if loc <=? yylloc t then
        if Ascii.eqb (char_at query loc) "-" then
          match toks' with
          | [] => (None, [])
          | t2 :: toks'' =>
              (Some (strlen (drop (Z.to_nat loc) (scanbuf query t2))), toks'')
          end
        else (Some (strlen (drop (Z.to_nat loc) (scanbuf query t))), toks')
      else lex_constant query loc toks'
  end.

Definition set_length (s : pgssLocationLen) (len : Z) : pgssLocationLen :=
  {| location := location s; length := len |}.

(** The outer [for] of [fill_in_constant_lengths] over [locs[i..]], with the
    current [last_loc] and the tokens left in the scanner. *)
Fixpoint resolve_lengths (query : list ascii) (last_loc : Z)
    (toks : list token) (locs : list pgssLocationLen)
  : result (list pgssLocationLen) :=
  match locs with
  | [] => Ok []
  | s :: locs' =>
      let loc := location s in
      if loc <? 0 then Fail Assert_loc_nonneg
      else if loc <=? last_loc then
        cons s <$> resolve_lengths query last_loc toks locs'
      else
        match lex_constant query loc toks with
        | (None, _) => Ok (s :: locs')
        | (Some len, toks') =>
            cons (set_length s len) <$> resolve_lengths query loc toks' locs'
        end
  end.

(** ** generate_normalized_query: the rewrite loop *)

(** The locals of [generate_normalized_query].  [norm_query] holds the bytes
    written so far, which the code always writes at [n_quer_loc], one after
    the other from offset 0. *)
Record rewriter := {
  norm_query : list ascii;
  quer_loc : Z;        (* Source query byte location *)
  n_quer_loc : Z;      (* Normalized query byte location *)
  last_off : Z;        (* Offset from start for previous tok *)
  last_tok_len : Z     (* Length (in bytes) of that tok *)
}.

Definition rewriter_init : rewriter :=
  {| norm_query := []; quer_loc := 0; n_quer_loc := 0;
     last_off := 0; last_tok_len := 0 |}.

(** [memcpy(norm_query + n_quer_loc, query + quer_loc, len_to_wrt)]: the
    bytes copied.  The source holds the text and its terminator, the result
    buffer is [palloc(query_len + 1)]; a copy that leaves either is a fault. *)
Definition memcpy_query (query : list ascii) (query_len : Z)
    (n_quer_loc quer_loc len_to_wrt : Z) : result (list ascii) :=
  if (0 <=? quer_loc)
     && (quer_loc + len_to_wrt <=? Z.of_nat (List.length query) + 1)
     && (0 <=? n_quer_loc)
     && (n_quer_loc + len_to_wrt <=? query_len + 1)
  then Ok (take (Z.to_nat len_to_wrt) (drop (Z.to_nat quer_loc) (query ++ [NUL])))
  else Fail Fault_memcpy.

(** One iteration of the [for] loop of [generate_normalized_query], for the
    entry [s = jstate->clocations[i]]. *)
Definition rewrite_constant (query : list ascii) (query_len : Z)
    (st : rewriter) (s : pgssLocationLen) : result rewriter :=
  let off := location s in
  let tok_len := length s in
  if tok_len <? 0 then Ok st            (* ignore any duplicates *)
  else
    let len_to_wrt := off - last_off st - last_tok_len st in
    if len_to_wrt <? 0 then Fail Assert_len_to_wrt
    else
      chunk ← memcpy_query query query_len (n_quer_loc st) (quer_loc st) len_to_wrt;
      let n := n_quer_loc st + len_to_wrt in
      if query_len <? n then Fail Fault_store
      else
        Ok {| norm_query := norm_query st ++ chunk ++ ["?"%char];
              quer_loc := off + tok_len;
              n_quer_loc := n + 1;
              last_off := off;
              last_tok_len := tok_len |}.

Fixpoint rewrite_constants (query : list ascii) (query_len : Z)
    (st : rewriter) (locs : list pgssLocationLen) : result rewriter :=
  match locs with
  | [] => Ok st
  | s :: locs' =>
      st' ← rewrite_constant query query_len st s;
      rewrite_constants query query_len st' locs'
  end.

(** The code after the loop: copy the rest of the text, check the length,
    terminate the result.  Returns the result text and [*query_len_p]. *)
Definition rewrite_tail (query : list ascii) (query_len : Z) (st : rewriter)
  : result (list ascii * Z) :=
  let len_to_wrt := query_len - quer_loc st in
  if len_to_wrt <? 0 then Fail Assert_tail_len_to_wrt
  else
    chunk ← memcpy_query query query_len (n_quer_loc st) (quer_loc st) len_to_wrt;
    let n := n_quer_loc st + len_to_wrt in
    if query_len <? n then Fail Assert_n_quer_loc
    else Ok (norm_query st ++ chunk, n).

(** ** The raw parse tree and PostgreSQL's walker *)

(** A node of the raw parse tree, as far as the collector can tell nodes
    apart: an [A_Const] with its [location]; a node of a type that
    [raw_expression_tree_walker] handles, with the child pointers it visits,
    in the order it visits them ([None] is a NULL pointer); a node on which
    it reports an error before it looks at anything below the node (a node
    type it has no case for). *)
#[warnings="-register-all"]
Inductive Node :=
| A_Const (location : Z)
| T_Walked (children : list (option Node))
| T_Unrecognized (below : list (option Node)).

(** How a call into PostgreSQL ends: it returns, or it reports an error
    through [elog(ERROR)], which jumps to the innermost [PG_TRY]. *)
Inductive pg_call (A : Type) :=
| pg_return (a : A)
| pg_error.
Arguments pg_return {A} a.
Arguments pg_error {A}.

(** PostgreSQL's [raw_expression_tree_walker(node, walker, context)]: calls
    [walker] on every child in turn, returns true as soon as one call does
    and false after the last one; [A_Const] has no children; unrecognized
    node types are reported with [elog(ERROR)].  An error that a call of
    [walker] reports passes through the generic walker, which has no
    [PG_TRY] of its own; a fault in a call of [walker] ends the run. *)
Definition raw_expression_tree_walker {C} (node : Node)
    (walker : option Node → C → result (pg_call bool * C)) (context : C)
  : result (pg_call bool * C) :=
  match node with
  | A_Const _ => Ok (pg_return false, context)
  | T_Walked children =>
      (fix visit (l : list (option Node)) (context : C)
         : result (pg_call bool * C) :=
         match l with
         | [] => Ok (pg_return false, context)
         | child :: l' =>
             match walker child context with
             | Ok (pg_return r, context') =>
                 if r then Ok (pg_return true, context') else visit l' context'
             | Ok (pg_error, context') => Ok (pg_error, context')
             | Fail f => Fail f
             end
         end) children context
  | T_Unrecognized _ => Ok (pg_error, context)
  end.

(** ** Allocation *)

(** PostgreSQL's [MaxAllocSize] (utils/memutils.h): [palloc] and [repalloc]
    report a request of more bytes with [elog(ERROR)]. *)
Definition MaxAllocSize : Z := 0x3fffffff.

(** [sizeof(pgssLocationLen)]: two [int] of four bytes each. *)
Definition sizeof_pgssLocationLen : Z := 8.

(** The conversion of an [int] to [size_t], of 64 bits. *)
Definition size_t_wrap (z : Z) : Z := z mod 2 ^ 64.

(** PostgreSQL's [ErrorData], as far as [new_parse_error] reads it. *)
Record ErrorData := {
  message : string;
  cursorpos : Z
}.

(** The error of a refused request, which has no cursor position:
    [elog(ERROR, "invalid memory alloc request size ...")] with the size
    asked for. *)
Definition invalid_alloc_request (size : Z) : ErrorData :=
  {| message := "invalid memory alloc request size " +:+ pretty size;
     cursorpos := 0 |}.

Section Normalize.

(** What [palloc] and [repalloc] leave in the cells they hand out. *)
Variable junk : pgssLocationLen.

(** The scanner: the tokens that [core_yylex] returns for a text, from
    [scanner_init] to the 0 of the end of input. *)
Variable scanner_tokens : list ascii → list token.

(** ** const_record_walker *)

(** "enlarge array if needed": the capacity field is doubled first, then
    [repalloc] is asked for that many cells.  A request that [repalloc]
    refuses is an error, and it leaves the field doubled and the array as it
    was, since the pointer is assigned only when [repalloc] returns. *)
Definition enlarge_if_needed (jstate : pgssConstLocations)
  : pg_call unit * pgssConstLocations :=
  if clocations_buf_size jstate <=? clocations_count jstate then
    let size := int_wrap (clocations_buf_size jstate * 2) in
    let request := size_t_wrap (size * sizeof_pgssLocationLen) in
    if request <=? MaxAllocSize then
      (pg_return (),
       {| clocations := resize (Z.to_nat size) junk (clocations jstate);
          clocations_buf_size := size;
          clocations_count := clocations_count jstate |})
    else
      (pg_error,
       {| clocations := clocations jstate;
          clocations_buf_size := size;
          clocations_count := clocations_count jstate |})
  else (pg_return (), jstate).

(** The [A_Const] branch of [const_record_walker]: enlarge the array if
    needed, then store the location with length -1 at the index of the
    count.  A store at an index outside the allocated cells is a fault. *)
Definition record_constant (jstate : pgssConstLocations) (loc : Z)
  : result (pg_call unit * pgssConstLocations) :=
  match enlarge_if_needed jstate with
  | (pg_error, jstate) => Ok (pg_error, jstate)
  | (pg_return _, jstate) =>
      let i := clocations_count jstate in
      if (0 <=? i) && (i <? Z.of_nat (List.length (clocations jstate))) then
        Ok (pg_return (),
            {| clocations :=
                 <[Z.to_nat i := {| location := loc; length := -1 |}]>
                   (clocations jstate);
               clocations_buf_size := clocations_buf_size jstate;
               clocations_count := int_wrap (i + 1) |})
      else Fail Fault_clocations
  end.

(** [const_record_walker] on a node that is not NULL.  The [A_Const] branch
    comes before [PG_TRY]: an error of [repalloc] leaves the function, for
    the [PG_TRY] of a caller.  The call of [raw_expression_tree_walker] is
    inside [PG_TRY]: an error that it reports, or that reaches it from a walk
    below, is flushed and the result is false. *)
Fixpoint const_record_walker_node (node : Node) (jstate : pgssConstLocations)
  {struct node} : result (pg_call bool * pgssConstLocations) :=
  match
    match node with
    | A_Const loc =>
        if 0 <=? loc then record_constant jstate loc else Ok (pg_return (), jstate)
    | _ => Ok (pg_return (), jstate)
    end
  with
  | Fail f => Fail f
  | Ok (pg_error, jstate) => Ok (pg_error, jstate)
  | Ok (pg_return _, jstate) =>
      match
        raw_expression_tree_walker node
          (λ child jstate,
             match child with
             | None => Ok (pg_return false, jstate)
             | Some c => const_record_walker_node c jstate
             end)
          jstate
      with
      | Fail f => Fail f
      | Ok (pg_return r, jstate') => Ok (pg_return r, jstate')
      | Ok (pg_error, jstate') => Ok (pg_return false, jstate')
      end
  end.

Definition const_record_walker (node : option Node) (jstate : pgssConstLocations)
  : result (pg_call bool * pgssConstLocations) :=
  match node with
  | None => Ok (pg_return false, jstate)
  | Some n => const_record_walker_node n jstate
  end.

(** ** fill_in_constant_lengths *)

Definition fill_in_constant_lengths (jstate : pgssConstLocations)
    (query : list ascii) : result pgssConstLocations :=
  let n := Z.to_nat (clocations_count jstate) in
  let locs := take n (clocations jstate) in
  let locs := if 1 <? clocations_count jstate
              then qsort comp_location locs else locs in
  locs' ← resolve_lengths query (-1) (scanner_tokens query) locs;
  Ok {| clocations := locs' ++ drop n (clocations jstate);
        clocations_buf_size := clocations_buf_size jstate;
        clocations_count := clocations_count jstate |}.

(** ** generate_normalized_query *)

Definition generate_normalized_query (jstate : pgssConstLocations)
    (query : list ascii) (query_len : Z) : result (list ascii * Z) :=
  jstate' ← fill_in_constant_lengths jstate query;
  st ← rewrite_constants query query_len rewriter_init
         (take (Z.to_nat (clocations_count jstate')) (clocations jstate'));
  rewrite_tail query query_len st.

(** ** pg_query_normalize *)

(** A [PgQuery::ParseError] built from its two arguments. *)
Record ParseError := {
  error_message : string;
  error_cursorpos : Z
}.

Definition new_parse_error (error : ErrorData) : ParseError :=
  {| error_message := message error; error_cursorpos := cursorpos error |}.

(** The parser: [raw_parser(str)] returns the tree (NIL for an empty list of
    statements) or reports an error. *)
Variable raw_parser : list ascii → ErrorData + option Node.

(** "Set up workspace for constant recording": the working state with which
    [pg_query_normalize] starts the walk. *)
Definition jstate_init : pgssConstLocations :=
  {| clocations := replicate 32 junk;
     clocations_buf_size := 32;
     clocations_count := 0 |}.

(** How [PgQuery.normalize] ends for its caller: it returns a string, it
    raises the [ParseError], or the process stops at a failed check or has
    left a buffer. *)
Inductive outcome :=
| Returns (str : list ascii)
| Raises (error : ParseError)
| Aborts (f : failure).

(** [rb_tainted_str_new_cstr(str)]: the Ruby string made of the bytes of the
    C string at [str]. *)
Definition rb_tainted_str_new_cstr (str : list ascii) : list ascii :=
  take (Z.to_nat (strlen str)) str.

(** [pg_query_normalize], for an [input] that is a String ([Check_Type]) whose
    content is a C string ([StringValueCStr]): the two checks of the Ruby
    argument come before everything else and are not part of the model, which
    is about the inputs that pass them.  An error that leaves
    [const_record_walker] is that of the request which [repalloc] refused,
    for the doubled capacity. *)
Definition pg_query_normalize (input : list ascii) : outcome :=
  let str := input in
  match raw_parser str with
  | inl error_data => Raises (new_parse_error error_data)
  | inr tree =>
      let jstate := jstate_init in
      match const_record_walker tree jstate with
      | Fail f => Aborts f
      | Ok (pg_error, jstate) =>
          Raises (new_parse_error
                    (invalid_alloc_request
                       (size_t_wrap (clocations_buf_size jstate
                                     * sizeof_pgssLocationLen))))
      | Ok (pg_return _, jstate) =>
          let query_len := strlen str in
          match generate_normalized_query jstate str query_len with
          | Ok (str', _) => Returns (rb_tainted_str_new_cstr str')
          | Fail f => Aborts f
          end
      end
  end.

End Normalize.


(** ** pg_query_raw_parse *)

Definition STDERR_BUFFER_LEN : Z := 4096.

Section RawParse.

(** The parser, as in [pg_query_normalize]. *)
Variable raw_parser : list ascii → ErrorData + option Node.

(** PostgreSQL's [nodeToString(tree)]: the text form of a tree, or the error
    that it reports, which the [PG_CATCH] of [pg_query_raw_parse] takes like
    one of the parser. *)
Variable nodeToString : option Node → ErrorData + list ascii.

(** Whether [pipe(stderr_pipe)] returns non-zero. *)
Variable pipe_fails : bool.

(** The bytes that [raw_parser] and then [nodeToString] write to stderr,
    which is the pipe, for a text: what the pipe holds when [read] is
    called. *)
Variable stderr_written : list ascii → list ascii.

(** Whether one of their writes finds the pipe full.  Only the reading end
    is made non-blocking and nothing reads the pipe before they are done, so
    such a write does not return. *)
Variable stderr_blocks : list ascii → bool.

(** [read(fd, buf, count)] on the pipe: the bytes it delivers, which are the
    first [count] bytes that the pipe holds, or all of them when there are
    fewer (none, and a result of -1, when the pipe is empty). *)
Definition read_pipe (held : list ascii) (count : Z) : list ascii :=
  take (Z.to_nat count) held.

(** A buffer after [read] has put [bytes] at its start. *)
Definition buffer_after_read (buf bytes : list ascii) : list ascii :=
  take (List.length buf) (bytes ++ drop (List.length bytes) buf).

(** How [PgQuery._raw_parse] ends for its caller: it returns the array of the
    tree text and the text caught from stderr, it raises the [ParseError], it
    raises the [IOError] of the failed [pipe], or it does not come back from
    a write to the full pipe. *)
Inductive raw_parse_outcome :=
| RawReturns (tree_text stderr_text : list ascii)
| RawRaises (error : ParseError)
| RawRaisesIOError
| RawBlocks.

(** [pg_query_raw_parse], for an [input] that is a String whose content is a
    C string, as for [pg_query_normalize]; the calls on the descriptors after
    [pipe] are taken to succeed.  [stderr_buffer] is
    [char[STDERR_BUFFER_LEN + 1] = {0}]; [rb_str_new2] makes a string of the
    C string in it, as [rb_tainted_str_new_cstr] does. *)
Definition pg_query_raw_parse (input : list ascii) : raw_parse_outcome :=
  if pipe_fails then RawRaisesIOError
  else if stderr_blocks input then RawBlocks
  else
    match raw_parser input with
    | inl error_data => RawRaises (new_parse_error error_data)
    | inr tree =>
        match nodeToString tree with
        | inl error_data => RawRaises (new_parse_error error_data)
        | inr str =>
            let stderr_buffer :=
              buffer_after_read (replicate (Z.to_nat (STDERR_BUFFER_LEN + 1)) NUL)
                (read_pipe (stderr_written input) STDERR_BUFFER_LEN) in
            RawReturns (rb_tainted_str_new_cstr str)
                       (rb_tainted_str_new_cstr stderr_buffer)
        end
    end.

End RawParse.

(** ** The build without assertion checking *)

(** PostgreSQL's [Assert] expands to nothing unless [USE_ASSERT_CHECKING] is
    defined.  [Release] holds the functions above that have an [Assert] in
    them, and those that call them, as the build without it compiles them:
    the code goes on where the other build stops. *)
Module Release.

(** The outer [for] of [fill_in_constant_lengths]: a location below 0 is not
    beyond [last_loc], which starts at -1. *)
Fixpoint resolve_lengths (query : list ascii) (last_loc : Z)
    (toks : list token) (locs : list pgssLocationLen)
  : result (list pgssLocationLen) :=
  match locs with
  | [] => Ok []
  | s :: locs' =>
      let loc := location s in
      if loc <=? last_loc then
        cons s <$> resolve_lengths query last_loc toks locs'
      else
        match lex_constant query loc toks with
        | (None, _) => Ok (s :: locs')
        | (Some len, toks') =>
            cons (set_length s len) <$> resolve_lengths query loc toks' locs'
        end
  end.

(** [memcpy] takes its length as [size_t]: a negative [len_to_wrt] is a
    length of nearly [SIZE_MAX] bytes there, which no buffer holds. *)
Definition memcpy_query (query : list ascii) (query_len : Z)
    (n_quer_loc quer_loc len_to_wrt : Z) : result (list ascii) :=
  if len_to_wrt <? 0 then Fail Fault_memcpy
  else memcpy_query query query_len n_quer_loc quer_loc len_to_wrt.

Definition rewrite_constant (query : list ascii) (query_len : Z)
    (st : rewriter) (s : pgssLocationLen) : result rewriter :=
  let off := location s in
  let tok_len := length s in
  if tok_len <? 0 then Ok st            (* ignore any duplicates *)
  else
    let len_to_wrt := off - last_off st - last_tok_len st in
    chunk ← memcpy_query query query_len (n_quer_loc st) (quer_loc st) len_to_wrt;
    let n := n_quer_loc st + len_to_wrt in
    if query_len <? n then Fail Fault_store
    else
      Ok {| norm_query := norm_query st ++ chunk ++ ["?"%char];
            quer_loc := off + tok_len;
            n_quer_loc := n + 1;
            last_off := off;
            last_tok_len := tok_len |}.

Fixpoint rewrite_constants (query : list ascii) (query_len : Z)
    (st : rewriter) (locs : list pgssLocationLen) : result rewriter :=
  match locs with
  | [] => Ok st
  | s :: locs' =>
      st' ← rewrite_constant query query_len st s;
      rewrite_constants query query_len st' locs'
  end.

(** The code after the loop; the store of the terminator at an index beyond
    [query_len] is outside the result buffer. *)
Definition rewrite_tail (query : list ascii) (query_len : Z) (st : rewriter)
  : result (list ascii * Z) :=
  let len_to_wrt := query_len - quer_loc st in
  chunk ← memcpy_query query query_len (n_quer_loc st) (quer_loc st) len_to_wrt;
  let n := n_quer_loc st + len_to_wrt in
  if query_len <? n then Fail Fault_store
  else Ok (norm_query st ++ chunk, n).

Section ReleaseNormalize.

Variable scanner_tokens : list ascii → list token.

Definition fill_in_constant_lengths (jstate : pgssConstLocations)
    (query : list ascii) : result pgssConstLocations :=
  let n := Z.to_nat (clocations_count jstate) in
  let locs := take n (clocations jstate) in
  let locs := if 1 <? clocations_count jstate
              then qsort comp_location locs else locs in
  locs' ← resolve_lengths query (-1) (scanner_tokens query) locs;
  Ok {| clocations := locs' ++ drop n (clocations jstate);
        clocations_buf_size := clocations_buf_size jstate;
        clocations_count := clocations_count jstate |}.

Definition generate_normalized_query (jstate : pgssConstLocations)
    (query : list ascii) (query_len : Z) : result (list ascii * Z) :=
  jstate' ← fill_in_constant_lengths jstate query;
  st ← rewrite_constants query query_len rewriter_init
         (take (Z.to_nat (clocations_count jstate')) (clocations jstate'));
  rewrite_tail query query_len st.

End ReleaseNormalize.

End Release.

(** * Predicates and functions used in the statements *)

(** ** The scanner's side of the contract *)

(** The tokens lie inside the text, none of them is empty, and each starts
    where the one before it ended, or later; [pos] is where the scanner
    stands. *)
Fixpoint tokens_from (pos query_len : Z) (toks : list token) : Prop :=
  match toks with
  | [] => True
  | t :: toks' =>
      pos ≤ yylloc t ∧ yylloc t < tok_end t ∧ tok_end t ≤ query_len
      ∧ tokens_from (tok_end t) query_len toks'
  end.

Definition tokens_wf (query : list ascii) (toks : list token) : Prop :=
  tokens_from 0 (strlen query) toks.

(** ** The parser's side of the contract *)

(** Every constant location is the start of a token ("constants at the
    indicated locations", in the words of the comment before
    [fill_in_constant_lengths]), unless the scanner ends before it has
    reached the location. *)
Definition constants_located (toks : list token) (locs : list Z) : Prop :=
  ∀ loc, loc ∈ locs →
    (∃ t, t ∈ toks ∧ yylloc t = loc) ∨ Forall (λ t, yylloc t < loc) toks.

(** A [-] at a constant location begins a negative numeric constant: the
    token after the sign is the magnitude of that constant, and no constant
    of its own. *)
Definition signs_merged (query : list ascii) (toks : list token)
    (locs : list Z) : Prop :=
  ∀ pre t t2 post,
    toks = pre ++ t :: t2 :: post →
    yylloc t ∈ locs →
    char_at query (yylloc t) = "-"%char →
    yylloc t2 ∉ locs.

(** ** Span sets *)

(** The entries that the rewrite loop replaces, and those it ignores. *)
Definition replaced (s : pgssLocationLen) : Prop := 0 ≤ length s.

#[global] Instance replaced_dec s : Decision (replaced s) := Z_le_dec 0 (length s).

Definition replaced_spans (locs : list pgssLocationLen) : list pgssLocationLen :=
  filter replaced locs.

(** The sum of the lengths of the replaced entries. *)
Definition replaced_bytes (locs : list pgssLocationLen) : Z :=
  foldr (λ s acc, length s + acc) 0 (replaced_spans locs).

(** The replaced entries come in ascending order and do not overlap: each
    starts at [pos], the end of the one before it, or later. *)
Fixpoint non_overlapping_from (pos : Z) (locs : list pgssLocationLen) : Prop :=
  match locs with
  | [] => True
  | s :: locs' =>
      if decide (replaced s)
      then pos ≤ location s ∧ non_overlapping_from (location s + length s) locs'
      else non_overlapping_from pos locs'
  end.

Definition non_overlapping (locs : list pgssLocationLen) : Prop :=
  non_overlapping_from 0 locs.

(** The replaced entries do not overlap, none is empty and all lie inside a
    text of [query_len] bytes. *)
Fixpoint spans_from (pos query_len : Z) (locs : list pgssLocationLen) : Prop :=
  match locs with
  | [] => pos ≤ query_len
  | s :: locs' =>
      if decide (replaced s)
      then pos ≤ location s ∧ 1 ≤ length s
           ∧ spans_from (location s + length s) query_len locs'
      else spans_from pos query_len locs'
  end.

(** The entry that the collector writes for a location. *)
Definition unresolved (loc : Z) : pgssLocationLen :=
  {| location := loc; length := -1 |}.

(** ** The collector *)

(** The locations that a walk of the tree records, in the order of the walk:
    those of the [A_Const] nodes with a known location that are not below a
    node on which the walker fails. *)
Fixpoint constants_of (node : Node) : list Z :=
  match node with
  | A_Const loc => if 0 <=? loc then [loc] else []
  | T_Walked children =>
      (fix of_children (l : list (option Node)) : list Z :=
         match l with
         | [] => []
         | None :: l' => of_children l'
         | Some n :: l' => constants_of n ++ of_children l'
         end) children
  | T_Unrecognized _ => []
  end.

Fixpoint constants_of_children (l : list (option Node)) : list Z :=
  match l with
  | [] => []
  | None :: l' => constants_of_children l'
  | Some n :: l' => constants_of n ++ constants_of_children l'
  end.

(** Appends in a row, up to the first one that does not return. *)
Fixpoint record_constants (junk : pgssLocationLen) (jstate : pgssConstLocations)
    (locs : list Z) : result (pg_call unit * pgssConstLocations) :=
  match locs with
  | [] => Ok (pg_return (), jstate)
  | loc :: locs' =>
      match record_constant junk jstate loc with
      | Ok (pg_return _, jstate') => record_constants junk jstate' locs'
      | r => r
      end
  end.

(** The array of the working state is allocated, and the count is within
    its allocated length. *)
Definition jstate_inv (jstate : pgssConstLocations) : Prop :=
  0 < clocations_buf_size jstate
  ∧ 0 ≤ clocations_count jstate ≤ clocations_buf_size jstate
  ∧ Z.of_nat (List.length (clocations jstate)) = clocations_buf_size jstate.

(** The rewriter's locals are consistent: the copy so far is no longer than
    the text consumed. *)
Definition rewriter_inv (st : rewriter) : Prop :=
  0 ≤ n_quer_loc st ≤ quer_loc st
  ∧ quer_loc st = last_off st + last_tok_len st
  ∧ n_quer_loc st = Z.of_nat (List.length (norm_query st)).

(** The valid entries of the working state: the first [clocations_count]
    cells of the array. *)
Definition entries (jstate : pgssConstLocations) : list pgssLocationLen :=
  take (Z.to_nat (clocations_count jstate)) (clocations jstate).

(** ** Texts cut at their constants *)

(** A text given in pieces: each piece is the text in front of a constant and
    the text of that constant; [rest] is what follows the last constant. *)
Fixpoint source_of (pieces : list (list ascii * list ascii)) (rest : list ascii)
  : list ascii :=
  match pieces with
  | [] => rest
  | (gap, const) :: pieces' => gap ++ const ++ source_of pieces' rest
  end.

(** The entries of the constants of such a text, the first piece starting at
    offset [pos]. *)
Fixpoint spans_of (pos : Z) (pieces : list (list ascii * list ascii))
  : list pgssLocationLen :=
  match pieces with
  | [] => []
  | (gap, const) :: pieces' =>
      {| location := pos + Z.of_nat (List.length gap);
         length := Z.of_nat (List.length const) |}
      :: spans_of (pos + Z.of_nat (List.length gap) + Z.of_nat (List.length const))
           pieces'
  end.

(** The text with a [?] for every constant. *)
Fixpoint normalized_of (pieces : list (list ascii * list ascii)) (rest : list ascii)
  : list ascii :=
  match pieces with
  | [] => rest
  | (gap, _) :: pieces' => gap ++ "?"%char :: normalized_of pieces' rest
  end.

(** ** The capacity of the array *)

(** The capacity is the initial 32 doubled some number of times, and it is
    32 or less than twice the count. *)
Definition capacity_bounded (jstate : pgssConstLocations) : Prop :=
  (∃ k : nat, clocations_buf_size jstate = 32 * 2 ^ Z.of_nat k)
  ∧ (clocations_buf_size jstate = 32
     ∨ clocations_buf_size jstate < 2 * clocations_count jstate).

(** ** The two builds *)

(** Where the build with assertion checking stops at an assertion, what the
    build without it runs into: a copy of a negative length, or the store of
    the terminator beyond the buffer. *)
Definition release_failure (f : failure) : failure :=
  match f with
  | Assert_len_to_wrt | Assert_tail_len_to_wrt => Fault_memcpy
  | Assert_n_quer_loc => Fault_store
  | _ => f
  end.

Definition release_result {A} (r : result A) : result A :=
  match r with
  | Ok a => Ok a
  | Fail f => Fail (release_failure f)
  end.


(** * Examples used below *)

Definition where_one : list ascii := list_ascii_of_string "WHERE x = 1".
Definition where_minus_two : list ascii := list_ascii_of_string "WHERE x = -2".

Definition tok (start stop : Z) : token := {| yylloc := start; tok_end := stop |}.

(** The tokens of the two texts: [WHERE], [x], [=], and then [1], or [-] and
    [2]. *)
Definition where_one_tokens : list token :=
  [tok 0 5; tok 6 7; tok 8 9; tok 10 11].
Definition where_minus_two_tokens : list token :=
  [tok 0 5; tok 6 7; tok 8 9; tok 10 11; tok 11 12].

Definition example_scanner (query : list ascii) : list token :=
  if decide (query = where_one) then where_one_tokens
  else if decide (query = where_minus_two) then where_minus_two_tokens
  else [].

(** A tree with one constant, at offset 10. *)
Definition where_tree : option Node :=
  Some (T_Walked [Some (T_Walked [None; Some (A_Const 10)])]).

(** A tree in which the same constant is met twice. *)
Definition where_tree_twice : option Node :=
  Some (T_Walked [Some (A_Const 10); Some (T_Walked [Some (A_Const 10)])]).

(** A tree with a branch on which the walker fails between two constants. *)
Definition tree_with_failure : Node :=
  T_Walked [Some (A_Const 3);
            Some (T_Unrecognized [Some (A_Const 5)]);
            Some (A_Const 10)].

Definition example_parser (tree : option Node) (input : list ascii)
  : ErrorData + option Node := inr tree.

Definition syntax_error : ErrorData :=
  {| message := "syntax error at or near SELEC"; cursorpos := 1 |}.

Definition failing_parser (input : list ascii) : ErrorData + option Node :=
  inl syntax_error.

Definition example_junk : pgssLocationLen := {| location := 0; length := 0 |}.

(** A scanner that reaches the end of input right after the sign of
    [WHERE x = -2]. *)
Definition truncated_scanner (query : list ascii) : list token :=
  [tok 0 5; tok 6 7; tok 8 9; tok 10 11].

(** The working state after the walk of [where_tree]. *)
Definition where_jstate : pgssConstLocations :=
  {| clocations := unresolved 10 :: replicate 31 example_junk;
     clocations_buf_size := 32;
     clocations_count := 1 |}.

(** That state after [fill_in_constant_lengths] on [WHERE x = -2]. *)
Definition where_minus_two_filled : pgssConstLocations :=
  {| clocations := {| location := 10; length := 2 |} :: replicate 31 example_junk;
     clocations_buf_size := 32;
     clocations_count := 1 |}.

(** A working state whose array is full. *)
Definition full_jstate : pgssConstLocations :=
  {| clocations := replicate 32 (unresolved 7);
     clocations_buf_size := 32;
     clocations_count := 32 |}.

(** A working state with two locations of which one, offset 2, lies inside
    the first token of [WHERE x = -2]: not a state that the parser's
    locations lead to. *)
Definition misplaced_jstate : pgssConstLocations :=
  {| clocations := [unresolved 6; unresolved 2];
     clocations_buf_size := 2;
     clocations_count := 2 |}.

(** The working state after the walk of [where_tree_twice]. *)
Definition where_twice_jstate : pgssConstLocations :=
  {| clocations := unresolved 10 :: unresolved 10 :: replicate 30 example_junk;
     clocations_buf_size := 32;
     clocations_count := 2 |}.

(** A working state with a location at the sign of [WHERE x = -2] and one
    after it. *)
Definition beyond_jstate : pgssConstLocations :=
  {| clocations := [unresolved 10; unresolved 11];
     clocations_buf_size := 2;
     clocations_count := 2 |}.

Definition normalized_where : list ascii := list_ascii_of_string "WHERE x = ?".

(** The tree of [SELECT 1, 1, ..., 1] with [n] constants: the list of
    statements, the statement, its target list, and one target above each
    constant; the constant of index [i] is at offset [7 + 3 * i]. *)
Definition select_target (i : nat) : option Node :=
  Some (T_Walked [Some (A_Const (7 + 3 * Z.of_nat i))]).

Definition select_list (n : nat) : option Node :=
  Some (T_Walked [Some (T_Walked [Some (T_Walked (select_target <$> seq 0 n))])]).

(** The number of cells of the largest array that [repalloc] grants: the
    request for twice as many is one of [2 ^ 30] bytes. *)
Definition largest_array : nat := Z.to_nat (2 ^ 26).


(** [WHERE x = -2] in pieces: the text in front of the constant, and the
    constant. *)
Definition where_minus_two_pieces : list (list ascii * list ascii) :=
  [(list_ascii_of_string "WHERE x = ", list_ascii_of_string "-2")].

(** The working state [misplaced_jstate] after [fill_in_constant_lengths] on
    [WHERE x = -2]. *)
Definition misplaced_filled : pgssConstLocations :=
  {| clocations := [{| location := 2; length := 5 |}; {| location := 6; length := 3 |}];
     clocations_buf_size := 2;
     clocations_count := 2 |}.

(** A working state with the entries of [where_twice_jstate] and one more
    location, in another order. *)
Definition shuffled_jstate : pgssConstLocations :=
  {| clocations := [unresolved 10; unresolved 6; unresolved 10];
     clocations_buf_size := 4;
     clocations_count := 3 |}.

Definition sorted_jstate : pgssConstLocations :=
  {| clocations := [unresolved 6; unresolved 10; unresolved 10];
     clocations_buf_size := 4;
     clocations_count := 3 |}.

Definition example_nodeToString (tree : option Node) : ErrorData + list ascii :=
  inr (list_ascii_of_string "({SELECT})").

Definition example_stderr (input : list ascii) : list ascii :=
  list_ascii_of_string "WARNING:  nonstandard use of escape".

Definition pipe_has_room (input : list ascii) : bool := false.

(** * Properties *)

(** Case analysis on the comparisons [<?] and [<=?] of the goal. *)
Ltac case_compare :=
  repeat match goal with
  | |- context [?a <? ?b] => destruct (Z.ltb_spec a b)
  | |- context [?a <=? ?b] => destruct (Z.leb_spec a b)
  end.

(** ** C strings and the scan buffer *)

Lemma strlen_nonneg s : 0 ≤ strlen s.
Proof. induction s as [|c s IH]; simpl; [lia|]. destruct (Ascii.eqb c NUL); lia. Qed.

Lemma strlen_app_NUL s r :
  cstring s → strlen (s ++ NUL :: r) = Z.of_nat (List.length s).
Proof.
  induction 1 as [|c s Hc _ IH]; simpl; [done|].
  apply Ascii.eqb_neq in Hc. rewrite Hc, IH. lia.
Qed.

Lemma strlen_cstring s : cstring s → strlen s = Z.of_nat (List.length s).
Proof.
  induction 1 as [|c s Hc _ IH]; simpl; [done|].
  apply Ascii.eqb_neq in Hc. rewrite Hc, IH. lia.
Qed.

(** With the zero byte of the current token at [tok_end t], the C string that
    starts at [loc] ends there. *)
Lemma strlen_scanbuf query t loc :
  cstring query →
  0 ≤ loc ≤ tok_end t →
  tok_end t ≤ Z.of_nat (List.length query) →
  strlen (drop (Z.to_nat loc) (scanbuf query t)) = tok_end t - loc.
Proof.
  intros Hq Hloc He. unfold scanbuf.
  rewrite insert_take_drop by (rewrite length_app; simpl; lia).
  rewrite take_app_le by lia.
  rewrite drop_app_le by (rewrite length_take; lia).
  rewrite strlen_app_NUL by (apply Forall_drop, Forall_take, Hq).
  rewrite length_drop, length_take. lia.
Qed.

(** ** Tokens *)

(** A token of the list splits it into the tokens before it, which start
    before it, and the tokens after it, which start at its end or later. *)
Lemma tokens_from_split pos n toks t :
  tokens_from pos n toks → t ∈ toks →
  ∃ pre post, toks = pre ++ t :: post
    ∧ Forall (λ p, yylloc p < yylloc t) pre
    ∧ pos ≤ yylloc t ∧ yylloc t < tok_end t ∧ tok_end t ≤ n
    ∧ tokens_from (tok_end t) n post.
Proof.
  revert pos. induction toks as [|a toks IH]; intros pos Hw Hin.
  - by apply elem_of_nil in Hin.
  - destruct Hw as (H1&H2&H3&H4).
    destruct (decide (yylloc a = yylloc t ∧ tok_end a = tok_end t)) as [[E1 E2]|Hne].
    + assert (a = t) as -> by (destruct a, t; simpl in *; congruence).
      exists [], toks. repeat split; auto.
    + apply elem_of_cons in Hin as [->|Hin]; [tauto|].
      destruct (IH _ H4 Hin) as (pre&post&->&Hpre&Hp&Hlt&Hn&Hpost).
      exists (a :: pre), post. repeat split; auto; [|lia].
      constructor; [lia|done].
Qed.

(** ** The inner loop of the resolver *)

(** Tokens that start before the constant are read and dropped. *)
Lemma lex_constant_skip query loc pre toks :
  Forall (λ p, yylloc p < loc) pre →
  lex_constant query loc (pre ++ toks) = lex_constant query loc toks.
Proof.
  induction 1 as [|p pre Hp _ IH]; simpl; [done|].
  destruct (Z.leb_spec loc (yylloc p)); [lia|done].
Qed.

(** When no token is left that starts at the constant or later, the loop ends
    at the end of input. *)
Lemma lex_constant_eof query loc toks :
  Forall (λ p, yylloc p < loc) toks →
  lex_constant query loc toks = (None, []).
Proof.
  intros H. rewrite <- (app_nil_r toks). by rewrite lex_constant_skip.
Qed.

(** The loop never gives tokens back. *)
Lemma lex_constant_suffix query loc toks r toks' :
  lex_constant query loc toks = (r, toks') → ∃ pre, toks = pre ++ toks'.
Proof.
  induction toks as [|t toks IH]; simpl.
  - intros [= <- <-]. by exists [].
  - destruct (loc <=? yylloc t).
    + destruct (Ascii.eqb _ _).
      * destruct toks as [|t2 toks''].
        -- intros [= <- <-]. exists [t]. by rewrite app_nil_r.
        -- intros [= <- <-]. by exists [t; t2].
      * intros [= <- <-]. by exists [t].
    + intros H. destruct (IH H) as [pre ->]. by exists (t :: pre).
Qed.

Lemma tokens_from_app pos n l1 l2 :
  tokens_from pos n (l1 ++ l2) → ∃ pos', pos ≤ pos' ∧ tokens_from pos' n l2.
Proof.
  revert pos. induction l1 as [|t l1 IH]; intros pos; simpl.
  - intros. exists pos. split; [lia|done].
  - intros (H1&H2&H3&H4). destruct (IH _ H4) as (pos'&?&?). exists pos'. split; [lia|done].
Qed.

(** ** The resolver *)

Lemma fmap_Ok {A B} (g : A → B) (a : A) : g <$> Ok a = Ok (g a).
Proof. done. Qed.

Lemma fmap_Ok_inv {A B} (g : A → B) (r : result A) (b : B) :
  g <$> r = Ok b → ∃ a, r = Ok a ∧ b = g a.
Proof. destruct r as [a|f]; [intros [= <-]; by exists a|done]. Qed.

(** The token at or after the constant is the one the loop stops at; the
    length is read off the scan buffer of the last token taken. *)
Lemma lex_constant_found query loc pre t post :
  Forall (λ p, yylloc p < loc) pre →
  loc ≤ yylloc t →
  lex_constant query loc (pre ++ t :: post) =
    if Ascii.eqb (char_at query loc) "-" then
      match post with
      | [] => (None, [])
      | t2 :: post' =>
          (Some (strlen (drop (Z.to_nat loc) (scanbuf query t2))), post')
      end
    else (Some (strlen (drop (Z.to_nat loc) (scanbuf query t))), post).
Proof.
  intros Hpre Hloc. rewrite lex_constant_skip by done. simpl.
  destruct (Z.leb_spec loc (yylloc t)); [done|lia].
Qed.

(** On tokens that lie inside the text, a length that the loop assigns is at
    least 1 and ends inside the text. *)
Lemma lex_constant_inside query loc pos toks len toks' :
  cstring query → 0 ≤ loc →
  tokens_from pos (strlen query) toks →
  lex_constant query loc toks = (Some len, toks') →
  1 ≤ len ∧ loc + len ≤ strlen query
  ∧ tokens_from (loc + len) (strlen query) toks'.
Proof.
  intros Hq Hloc. rewrite (strlen_cstring _ Hq).
  revert pos. induction toks as [|t toks IH]; intros pos Htok; simpl; [done|].
  destruct Htok as (H1&H2&H3&H4).
  destruct (Z.leb_spec loc (yylloc t)); [|by apply IH with (tok_end t)].
  destruct (Ascii.eqb _ _).
  - destruct toks as [|t2 toks'']; [done|]. destruct H4 as (G1&G2&G3&G4).
    intros [= <- <-]. rewrite strlen_scanbuf by (done || lia).
    replace (loc + (tok_end t2 - loc)) with (tok_end t2) by lia. repeat split; [lia|lia|done].
  - intros [= <- <-]. rewrite strlen_scanbuf by (done || lia).
    replace (loc + (tok_end t - loc)) with (tok_end t) by lia. repeat split; [lia|lia|done].
Qed.

(** The resolver changes lengths only. *)
Lemma resolve_lengths_locations query last toks locs locs' :
  resolve_lengths query last toks locs = Ok locs' →
  map location locs' = map location locs.
Proof.
  revert last toks locs'. induction locs as [|s locs IH]; intros last toks locs'; simpl.
  - by intros [= <-].
  - destruct (location s <? 0); [done|].
    destruct (location s <=? last).
    + intros (l&Hl&->)%fmap_Ok_inv. simpl. f_equal. eauto.
    + destruct (lex_constant query (location s) toks) as [[len|] toks'].
      * intros (l&Hl&->)%fmap_Ok_inv. simpl. f_equal. eauto.
      * by intros [= <-].
Qed.

(** An entry at or before [last_loc] is left as it is. *)
Lemma resolve_lengths_skipped query last toks locs locs' j sj :
  resolve_lengths query last toks locs = Ok locs' →
  locs' !! j = Some sj → location sj ≤ last →
  locs !! j = Some sj.
Proof.
  revert last toks locs' j. induction locs as [|s locs IH]; intros last toks locs' j; simpl.
  - by intros [= <-].
  - destruct (location s <? 0); [done|].
    destruct (Z.leb_spec (location s) last).
    + intros (l&Hl&->)%fmap_Ok_inv. destruct j as [|j]; simpl; [done|]. eauto.
    + destruct (lex_constant query (location s) toks) as [[len|] toks'].
      * intros (l&Hl&->)%fmap_Ok_inv. destruct j as [|j]; simpl.
        -- intros [= <-]. simpl. lia.
        -- intros Hj Hle. eapply IH; [done..|lia].
      * by intros [= <-].
Qed.

(** Of two entries, the later one is left as it is when its location is not
    beyond that of the earlier one. *)
Lemma resolve_lengths_duplicates query last toks locs locs' i j si sj :
  resolve_lengths query last toks locs = Ok locs' →
  (i < j)%nat →
  locs' !! i = Some si → locs' !! j = Some sj →
  location sj ≤ location si →
  locs !! j = Some sj.
Proof.
  revert last toks locs' i j. induction locs as [|s locs IH]; intros last toks locs' i j; simpl.
  - by intros [= <-].
  - destruct (location s <? 0); [done|].
    destruct (Z.leb_spec (location s) last).
    + intros (l&Hl&->)%fmap_Ok_inv Hij. destruct j as [|j]; [lia|].
      destruct i as [|i]; simpl.
      * intros [= <-] Hj Hle. eapply resolve_lengths_skipped; [done..|lia].
      * intros. eapply IH; [done| |done..]. lia.
    + destruct (lex_constant query (location s) toks) as [[len|] toks'].
      * intros (l&Hl&->)%fmap_Ok_inv Hij. destruct j as [|j]; [lia|].
        destruct i as [|i]; simpl.
        -- intros [= <-] Hj Hle. simpl in Hle. eapply resolve_lengths_skipped; done.
        -- intros. eapply IH; [done| |done..]. lia.
      * by intros [= <-].
Qed.

Lemma spans_from_ignored pos n locs :
  Forall (λ s, length s < 0) locs → pos ≤ n → spans_from pos n locs.
Proof.
  induction 1 as [|s locs Hs _ IH]; simpl; [done|].
  intros. rewrite decide_False by (unfold replaced; lia). auto.
Qed.

Lemma spans_from_bound pos n locs : spans_from pos n locs → pos ≤ n.
Proof.
  revert pos. induction locs as [|s locs IH]; intros pos; simpl; [done|].
  destruct (decide (replaced s)); [|by auto].
  intros (?&?&H%IH). lia.
Qed.

(** Under the contract of the parser and the scanner, the resolver gives
    entries that do not overlap.  [locset] holds all constant locations,
    [pos] is the end of the last token taken. *)
Lemma resolve_lengths_located query locset :
  cstring query →
  ∀ locs last pos toks,
    tokens_from pos (strlen query) toks →
    pos ≤ strlen query →
    Forall (λ s, length s < 0 ∧ 0 ≤ location s ∧ location s ∈ locset) locs →
    (∀ loc, loc ∈ locset → last < loc →
       (∃ t, t ∈ toks ∧ yylloc t = loc) ∨ Forall (λ t, yylloc t < loc) toks) →
    signs_merged query toks locset →
    ∃ locs', resolve_lengths query last toks locs = Ok locs'
             ∧ spans_from pos (strlen query) locs'.
Proof.
  intros Hq. induction locs as [|s locs IH]; intros last pos toks Htok Hpos Hall Hinv Hsm.
  { by exists []. }
  apply Forall_cons in Hall as [(Hlen&Hnn&Hin) Hall]. simpl.
  destruct (Z.ltb_spec (location s) 0); [lia|].
  destruct (Z.leb_spec (location s) last) as [Hle|Hlt].
  { destruct (IH last pos toks) as (locs'&->&Hsp); [done..|].
    exists (s :: locs'). split; [done|]. simpl.
    by rewrite decide_False by (unfold replaced; lia). }
  assert (Forall (λ s, length s < 0) (s :: locs)) as Hignored.
  { constructor; [done|]. eapply Forall_impl; [exact Hall|]. simpl. tauto. }
  destruct (Hinv _ Hin Hlt) as [(t&Ht&Hy)|Heof].
  2: { rewrite lex_constant_eof by done. exists (s :: locs).
       split; [done|]. by apply spans_from_ignored. }
  destruct (tokens_from_split _ _ _ _ Htok Ht) as (pre&post&->&Hpre&Hp&Hne&Hn&Hpost).
  rewrite Hy in Hpre, Hp, Hne.
  rewrite lex_constant_found by (done || lia).
  assert (∀ post' e,
    tokens_from e (strlen query) post' → e ≤ strlen query →
    location s < e →
    (∃ mid, pre ++ t :: post = mid ++ post'
            ∧ Forall (λ p, yylloc p ≤ location s ∨ yylloc p ∉ locset) mid) →
    ∃ locs', resolve_lengths query (location s) post' locs = Ok locs'
      ∧ spans_from pos (strlen query) (set_length s (e - location s) :: locs'))
    as Hstep.
  { intros post' e Hpost' He Hse (mid&Hmid&Hskip).
    destruct (IH (location s) e post') as (locs'&Hres&Hsp); [done..| | |].
    - intros loc Hloc Hgt. destruct (Hinv loc Hloc) as [(t'&Ht'&Hy')|Heof]; [lia| |].
      + left. exists t'. split; [|done]. rewrite Hmid in Ht'.
        apply elem_of_app in Ht' as [Ht'|Ht']; [|done].
        rewrite Forall_forall in Hskip. destruct (Hskip _ Ht') as [?|Hno]; [lia|].
        rewrite Hy' in Hno. done.
      + right. rewrite Hmid in Heof. by apply Forall_app in Heof as [_ ?].
    - intros pre' a a2 post'' -> Ha Hc. apply (Hsm (mid ++ pre') a a2 post''); [|done..].
      rewrite Hmid. by rewrite <- app_assoc.
    - exists locs'. split; [done|]. simpl.
      rewrite decide_True by (unfold replaced; simpl; lia). simpl.
      replace (location s + (e - location s)) with e by lia.
      repeat split; [lia|lia|done]. }
  assert (Forall (λ p, yylloc p ≤ location s ∨ yylloc p ∉ locset) (pre ++ [t])) as Hmid0.
  { apply Forall_app. split; [|constructor; [lia|constructor]].
    eapply Forall_impl; [exact Hpre|]. simpl. lia. }
  rewrite (strlen_cstring _ Hq) in Hn.
  destruct (Ascii.eqb_spec (char_at query (location s)) "-") as [Hc|Hc].
  - destruct post as [|t2 post'].
    + exists (s :: locs). split; [done|]. by apply spans_from_ignored.
    + destruct Hpost as (G1&G2&G3&G4).
      rewrite strlen_scanbuf by (done || rewrite <- ?(strlen_cstring _ Hq); lia).
      destruct (Hstep post' (tok_end t2)) as (locs'&->&Hsp); [done|lia|lia| |].
      * exists (pre ++ [t; t2]). split; [by rewrite <- app_assoc|].
        replace (pre ++ [t; t2]) with ((pre ++ [t]) ++ [t2]) by (by rewrite <- app_assoc).
        apply Forall_app. split; [done|]. constructor; [|constructor]. right.
        apply (Hsm pre t t2 post'); [done| |by rewrite Hy]. by rewrite Hy.
      * by exists (set_length s (tok_end t2 - location s) :: locs').
  - rewrite strlen_scanbuf by (done || lia).
    destruct (Hstep post (tok_end t)) as (locs'&->&Hsp);
      [done|rewrite (strlen_cstring _ Hq); lia|lia| |].
    + exists (pre ++ [t]). split; [by rewrite <- app_assoc|done].
    + by exists (set_length s (tok_end t - location s) :: locs').
Qed.

(** A second entry right after an entry of the same location comes out of
    the resolver as it went in, and the other entries come out as they do
    without it. *)
Lemma resolve_lengths_twice query s l2 l1 last toks :
  resolve_lengths query last toks (l1 ++ s :: s :: l2)
  = (λ r, take (S (List.length l1)) r ++ s :: drop (S (List.length l1)) r)
      <$> resolve_lengths query last toks (l1 ++ s :: l2).
Proof.
  revert last toks. induction l1 as [|a l1 IH]; intros last toks.
  - simpl. destruct (location s <? 0); [done|].
    destruct (Z.leb_spec (location s) last).
    + by destruct (resolve_lengths query last toks l2).
    + destruct (lex_constant query (location s) toks) as [[len|] toks']; [|done].
      destruct (Z.leb_spec (location s) (location s)); [|lia].
      by destruct (resolve_lengths query (location s) toks' l2).
  - cbn [app resolve_lengths]. destruct (location a <? 0); [done|].
    destruct (location a <=? last).
    + rewrite IH. by destruct (resolve_lengths query last toks (l1 ++ s :: l2)).
    + destruct (lex_constant query (location a) toks) as [[len|] toks'].
      * rewrite IH.
        by destruct (resolve_lengths query (location a) toks' (l1 ++ s :: l2)).
      * rewrite fmap_Ok. cbn [List.length take drop app]. f_equal. f_equal.
        rewrite (cons_middle s l1 l2), app_assoc.
        rewrite take_app_length' by (rewrite length_app; simpl; lia).
        rewrite drop_app_length' by (rewrite length_app; simpl; lia).
        by rewrite <- app_assoc.
Qed.

(** The resolver fails on a negative location only. *)
Lemma resolve_lengths_total query locs last toks :
  Forall (λ s, 0 ≤ location s) locs →
  ∃ locs', resolve_lengths query last toks locs = Ok locs'.
Proof.
  revert last toks. induction locs as [|s locs IH]; intros last toks Hall; simpl.
  { by exists []. }
  apply Forall_cons in Hall as [Hs Hall].
  destruct (Z.ltb_spec (location s) 0); [lia|].
  destruct (location s <=? last).
  - destruct (IH last toks Hall) as [locs' ->]. by eexists.
  - destruct (lex_constant query (location s) toks) as [[len|] toks']; [|by eexists].
    destruct (IH (location s) toks' Hall) as [locs' ->]. by eexists.
Qed.

(** Entries at or beyond an offset before which all tokens start are left as
    they are. *)
Lemma resolve_lengths_beyond query bound locs last toks locs' :
  Forall (λ t, yylloc t < bound) toks →
  resolve_lengths query last toks locs = Ok locs' →
  Forall2 (λ s s', s' = s ∨ location s' < bound) locs locs'.
Proof.
  revert last toks locs'. induction locs as [|s locs IH]; intros last toks locs' Htoks; simpl.
  { intros [= <-]. constructor. }
  destruct (location s <? 0); [done|].
  destruct (location s <=? last).
  - intros (l&Hl&->)%fmap_Ok_inv. constructor; [by left|]. by eapply IH.
  - destruct (lex_constant query (location s) toks) as [[len|] toks'] eqn:Hlex.
    + intros (l&Hl&->)%fmap_Ok_inv.
      destruct (lex_constant_suffix _ _ _ _ _ Hlex) as [pre ->].
      apply Forall_app in Htoks as [Hpre Htoks'].
      constructor; [|by eapply IH].
      destruct (decide (location s < bound)); [by right|]. exfalso.
      rewrite lex_constant_eof in Hlex; [done|].
      apply Forall_app. split; (eapply Forall_impl; [eassumption|]); simpl; lia.
    + intros [= <-]. constructor; [by left|].
      clear. induction locs; constructor; auto.
Qed.

(** ** The rewriter *)

Lemma memcpy_query_Ok query query_len n_loc q_loc len chunk :
  memcpy_query query query_len n_loc q_loc len = Ok chunk ↔
  (0 ≤ q_loc ∧ q_loc + len ≤ Z.of_nat (List.length query) + 1
   ∧ 0 ≤ n_loc ∧ n_loc + len ≤ query_len + 1)
  ∧ chunk = take (Z.to_nat len) (drop (Z.to_nat q_loc) (query ++ [NUL])).
Proof.
  unfold memcpy_query. case_compare; simpl;
    split; try (intros [= <-]; done); try (intros [? ->]; done); intros [? _]; lia.
Qed.

Lemma memcpy_query_inside query query_len n_loc q_loc len :
  0 ≤ q_loc → q_loc + len ≤ Z.of_nat (List.length query) + 1 →
  0 ≤ n_loc → n_loc + len ≤ query_len + 1 →
  memcpy_query query query_len n_loc q_loc len
  = Ok (take (Z.to_nat len) (drop (Z.to_nat q_loc) (query ++ [NUL]))).
Proof. intros. by apply memcpy_query_Ok. Qed.

(** A copy that stays inside the buffers copies [len] bytes. *)
Lemma memcpy_query_length query query_len n_loc q_loc len chunk :
  memcpy_query query query_len n_loc q_loc len = Ok chunk → 0 ≤ len →
  Z.of_nat (List.length chunk) = len.
Proof.
  intros [(H1&H2&H3&H4) ->]%memcpy_query_Ok Hlen.
  rewrite length_take, length_drop, length_app. simpl. lia.
Qed.

(** An entry of negative length leaves the rewriter as it is. *)
Lemma rewrite_constant_ignored query query_len st s :
  length s < 0 → rewrite_constant query query_len st s = Ok st.
Proof. intros H. unfold rewrite_constant. destruct (Z.ltb_spec (length s) 0); [done|lia]. Qed.

(** The loop sees the replaced entries only. *)
Lemma rewrite_constants_replaced query query_len st locs :
  rewrite_constants query query_len st locs =
  rewrite_constants query query_len st (replaced_spans locs).
Proof.
  revert st. induction locs as [|s locs IH]; intros st; [done|].
  unfold replaced_spans. rewrite filter_cons. destruct (decide (replaced s)) as [Hs|Hs]; simpl.
  - destruct (rewrite_constant query query_len st s); simpl; [apply IH|done].
  - rewrite rewrite_constant_ignored by (unfold replaced in Hs; lia). apply IH.
Qed.

Lemma replaced_bytes_cons s locs :
  replaced_bytes (s :: locs) =
  if decide (replaced s) then length s + replaced_bytes locs else replaced_bytes locs.
Proof.
  unfold replaced_bytes, replaced_spans. rewrite filter_cons.
  by destruct (decide (replaced s)).
Qed.

Lemma replaced_spans_cons s locs :
  replaced_spans (s :: locs) =
  if decide (replaced s) then s :: replaced_spans locs else replaced_spans locs.
Proof. unfold replaced_spans. rewrite filter_cons. by destruct (decide (replaced s)). Qed.

(** What one iteration that replaces an entry does, when it passes its
    checks. *)
Lemma rewrite_constant_Ok query query_len st s st' :
  0 ≤ length s →
  rewrite_constant query query_len st s = Ok st' →
  let len_to_wrt := location s - last_off st - last_tok_len st in
  0 ≤ len_to_wrt
  ∧ n_quer_loc st + len_to_wrt ≤ query_len
  ∧ st' = {| norm_query :=
               norm_query st
               ++ take (Z.to_nat len_to_wrt)
                    (drop (Z.to_nat (quer_loc st)) (query ++ [NUL]))
               ++ ["?"%char];
             quer_loc := location s + length s;
             n_quer_loc := n_quer_loc st + len_to_wrt + 1;
             last_off := location s;
             last_tok_len := length s |}
  ∧ 0 ≤ quer_loc st
  ∧ quer_loc st + len_to_wrt ≤ Z.of_nat (List.length query) + 1.
Proof.
  intros Hlen. unfold rewrite_constant.
  destruct (Z.ltb_spec (length s) 0); [lia|].
  destruct (Z.ltb_spec (location s - last_off st - last_tok_len st) 0); [done|].
  destruct (memcpy_query _ _ _ _ _) as [chunk|] eqn:Hm; [|done]. simpl.
  apply memcpy_query_Ok in Hm as [(?&?&?&?) ->].
  destruct (Z.ltb_spec query_len (n_quer_loc st + (location s - last_off st - last_tok_len st)));
    [done|].
  intros [= <-]. simpl. repeat split; done || lia.
Qed.

(** The account of a run of the loop that passes its checks: the copy falls
    behind the source by one byte less than the length of every entry
    replaced. *)
Lemma rewrite_constants_account query query_len st locs st' :
  rewrite_constants query query_len st locs = Ok st' →
  quer_loc st = last_off st + last_tok_len st →
  n_quer_loc st = Z.of_nat (List.length (norm_query st)) →
  quer_loc st' = last_off st' + last_tok_len st'
  ∧ n_quer_loc st' = Z.of_nat (List.length (norm_query st'))
  ∧ n_quer_loc st' - quer_loc st' =
      n_quer_loc st - quer_loc st - replaced_bytes locs
      + Z.of_nat (List.length (replaced_spans locs)).
Proof.
  revert st. induction locs as [|s locs IH]; intros st; simpl.
  { intros [= <-] ??. unfold replaced_bytes. simpl. repeat split; [done..|lia]. }
  rewrite replaced_bytes_cons, replaced_spans_cons.
  destruct (decide (replaced s)) as [Hs|Hs].
  - destruct (rewrite_constant query query_len st s) as [st1|] eqn:H1; [|done]. simpl.
    intros Hrest Hq Hn.
    apply rewrite_constant_Ok in H1 as (Hw&_&->&Hql&Hsrc); [|done].
    destruct (IH _ Hrest) as (G1&G2&G3); simpl.
    + lia.
    + rewrite !length_app, length_take, length_drop, length_app. simpl. lia.
    + simpl in G3. repeat split; [done..|]. simpl. lia.
  - rewrite rewrite_constant_ignored by (unfold replaced in Hs; lia). simpl. apply IH.
Qed.

(** The account of the code after the loop. *)
Lemma rewrite_tail_Ok query query_len st out n :
  rewrite_tail query query_len st = Ok (out, n) →
  n_quer_loc st = Z.of_nat (List.length (norm_query st)) →
  n = Z.of_nat (List.length out)
  ∧ n = query_len + (n_quer_loc st - quer_loc st)
  ∧ n ≤ query_len
  ∧ out = norm_query st
          ++ take (Z.to_nat (query_len - quer_loc st))
               (drop (Z.to_nat (quer_loc st)) (query ++ [NUL])).
Proof.
  unfold rewrite_tail. intros H Hn.
  destruct (Z.ltb_spec (query_len - quer_loc st) 0); [done|].
  destruct (memcpy_query _ _ _ _ _) as [chunk|] eqn:Hm; [|done]. simpl in H.
  destruct (Z.ltb_spec query_len (n_quer_loc st + (query_len - quer_loc st))); [done|].
  injection H as <- <-.
  pose proof (memcpy_query_length _ _ _ _ _ _ Hm) as Hl.
  apply memcpy_query_Ok in Hm as [_ ->].
  rewrite length_app. repeat split; [lia..|done].
Qed.

(** On entries that do not overlap, are not empty and lie inside the text,
    the loop passes all its checks. *)
Lemma rewrite_constants_spans query st locs :
  rewriter_inv st →
  spans_from (quer_loc st) (Z.of_nat (List.length query)) locs →
  ∃ st', rewrite_constants query (Z.of_nat (List.length query)) st locs = Ok st'
         ∧ rewriter_inv st'
         ∧ quer_loc st' ≤ Z.of_nat (List.length query).
Proof.
  revert st. induction locs as [|s locs IH]; intros st Hinv; simpl.
  { intros. by exists st. }
  destruct (decide (replaced s)) as [Hs|Hs].
  - intros (Hpos&Hlen&Hsp). pose proof (spans_from_bound _ _ _ Hsp) as Hb.
    destruct Hinv as ((I1&I2)&I3&I4). unfold replaced in Hs.
    unfold rewrite_constant. case_compare; try lia.
    rewrite memcpy_query_inside by lia. simpl. case_compare; try lia.
    apply IH; [|done].
    repeat split; simpl; try lia.
    rewrite !length_app, length_take, length_drop, length_app. simpl. lia.
  - intros Hsp. rewrite rewrite_constant_ignored by (unfold replaced in Hs; lia).
    simpl. by apply IH.
Qed.

(** After such a loop the code after it passes its checks as well. *)
Lemma rewrite_tail_spans query st :
  rewriter_inv st →
  quer_loc st ≤ Z.of_nat (List.length query) →
  ∃ out n, rewrite_tail query (Z.of_nat (List.length query)) st = Ok (out, n).
Proof.
  intros ((I1&I2)&I3&I4) Hb. unfold rewrite_tail. case_compare; try lia.
  rewrite memcpy_query_inside by lia. simpl. case_compare; try lia. eauto.
Qed.

Lemma rewriter_init_inv : rewriter_inv rewriter_init.
Proof. unfold rewriter_inv. simpl. lia. Qed.

(** An ignored entry put anywhere into the array changes nothing for the
    loop. *)
Lemma rewrite_constants_insert_ignored query query_len st k s r :
  length s < 0 →
  rewrite_constants query query_len st (take k r ++ s :: drop k r)
  = rewrite_constants query query_len st r.
Proof.
  intros Hs. rewrite (rewrite_constants_replaced _ _ _ (_ ++ _)).
  rewrite (rewrite_constants_replaced _ _ _ r).
  unfold replaced_spans. rewrite filter_app, filter_cons.
  rewrite decide_False by (unfold replaced; lia).
  by rewrite <- filter_app, take_drop.
Qed.

Lemma rewrite_constants_ignored query query_len st locs :
  Forall (λ s, length s < 0) locs →
  rewrite_constants query query_len st locs = Ok st.
Proof.
  induction 1 as [|s locs Hs _ IH]; simpl; [done|].
  by rewrite rewrite_constant_ignored.
Qed.

(** When no replaced entry is empty, the entries replaced hold at least one
    byte each, and more than that when one of them holds two bytes. *)
Lemma replaced_bytes_count locs :
  Forall (λ s, replaced s → 1 ≤ length s) locs →
  Z.of_nat (List.length (replaced_spans locs)) ≤ replaced_bytes locs
  ∧ ((∃ s, s ∈ locs ∧ 2 ≤ length s) →
     Z.of_nat (List.length (replaced_spans locs)) < replaced_bytes locs).
Proof.
  induction 1 as [|s locs Hs _ [IH1 IH2]].
  { split; [done|]. intros (s&[]%elem_of_nil&_). }
  rewrite replaced_bytes_cons, replaced_spans_cons.
  destruct (decide (replaced s)) as [Hr|Hr].
  - specialize (Hs Hr). simpl. split; [lia|].
    intros (s'&[->|Hin]%elem_of_cons&Hlen); [lia|].
    assert (Z.of_nat (List.length (replaced_spans locs)) < replaced_bytes locs); [|lia].
    apply IH2. eauto.
  - split; [done|]. intros (s'&[->|Hin]%elem_of_cons&Hlen).
    + unfold replaced in Hr. lia.
    + apply IH2. eauto.
Qed.

(** A run of the loop that passes its checks has met entries that do not
    overlap. *)
Lemma rewrite_constants_non_overlapping query query_len st locs st' :
  rewrite_constants query query_len st locs = Ok st' →
  quer_loc st = last_off st + last_tok_len st →
  non_overlapping_from (quer_loc st) locs.
Proof.
  revert st. induction locs as [|s locs IH]; intros st; simpl; [done|].
  destruct (decide (replaced s)) as [Hs|Hs].
  - destruct (rewrite_constant query query_len st s) as [st1|] eqn:H1; [|done]. simpl.
    intros Hrest Hq.
    apply rewrite_constant_Ok in H1 as (Hw&_&->&_&_); [|done].
    split; [lia|]. apply (IH _ Hrest). simpl. lia.
  - rewrite rewrite_constant_ignored by (unfold replaced in Hs; lia). simpl. apply IH.
Qed.
(** ** The collector *)

Lemma int_wrap_id z : - 2 ^ 31 ≤ z < 2 ^ 31 → int_wrap z = z.
Proof. intros H. unfold int_wrap. rewrite Z.mod_small; lia. Qed.

Lemma size_t_wrap_id z : 0 ≤ z < 2 ^ 64 → size_t_wrap z = z.
Proof. intros H. unfold size_t_wrap. rewrite Z.mod_small; lia. Qed.

(** One append, from a state that satisfies the invariant and holds fewer
    than 2^26 entries: the request for a larger array, if there is one, is
    granted, the store is inside the array, the entries before it stay, and
    the invariant holds again. *)
Lemma record_constant_inv junk jstate loc :
  jstate_inv jstate →
  clocations_count jstate < 2 ^ 26 →
  ∃ jstate',
    record_constant junk jstate loc = Ok (pg_return (), jstate')
    ∧ jstate_inv jstate'
    ∧ clocations_count jstate' = clocations_count jstate + 1
    ∧ (Z.to_nat (clocations_count jstate) < List.length (clocations jstate'))%nat
    ∧ clocations jstate' !! Z.to_nat (clocations_count jstate) = Some (unresolved loc)
    ∧ take (Z.to_nat (clocations_count jstate)) (clocations jstate')
      = take (Z.to_nat (clocations_count jstate)) (clocations jstate)
    ∧ clocations_buf_size jstate' =
        (if clocations_buf_size jstate <=? clocations_count jstate
         then 2 * clocations_buf_size jstate else clocations_buf_size jstate).
Proof.
  intros (Hb&Hc&Hl) Hroom. unfold record_constant, enlarge_if_needed.
  destruct (Z.leb_spec (clocations_buf_size jstate) (clocations_count jstate)) as [Hfull|Hfree].
  - rewrite (int_wrap_id (clocations_buf_size jstate * 2)) by lia.
    unfold sizeof_pgssLocationLen, MaxAllocSize.
    rewrite size_t_wrap_id by lia.
    destruct (Z.leb_spec (clocations_buf_size jstate * 2 * 8) 0x3fffffff); [|lia].
    cbn [clocations clocations_count clocations_buf_size].
    rewrite length_resize.
    destruct (Z.leb_spec 0 (clocations_count jstate)); [|lia].
    destruct (Z.ltb_spec (clocations_count jstate)
                (Z.of_nat (Z.to_nat (clocations_buf_size jstate * 2)))); [|lia].
    cbn [andb]. eexists. split; [reflexivity|].
    rewrite (int_wrap_id (clocations_count jstate + 1)) by lia.
    unfold jstate_inv; cbn [clocations clocations_count clocations_buf_size].
    rewrite length_insert, length_resize.
    repeat split; try lia.
    + apply list_lookup_insert_eq. rewrite length_resize. lia.
    + rewrite take_insert_ge by lia. rewrite resize_ge by lia.
      rewrite take_app_le by lia. done.
  - destruct (Z.leb_spec 0 (clocations_count jstate)); [|lia].
    destruct (Z.ltb_spec (clocations_count jstate)
                (Z.of_nat (List.length (clocations jstate)))); [|lia].
    cbn [andb]. eexists. split; [reflexivity|].
    rewrite (int_wrap_id (clocations_count jstate + 1)) by lia.
    unfold jstate_inv; cbn [clocations clocations_count clocations_buf_size].
    rewrite length_insert.
    repeat split; try lia.
    + apply list_lookup_insert_eq. lia.
    + by rewrite take_insert_ge by lia.
Qed.

(** The append to a full array of 2^26 cells: the capacity field is doubled,
    the request of 2^30 bytes is refused, the array and the count stay. *)
Lemma record_constant_refused junk jstate loc :
  jstate_inv jstate →
  clocations_count jstate = 2 ^ 26 →
  clocations_buf_size jstate = 2 ^ 26 →
  record_constant junk jstate loc
  = Ok (pg_error, {| clocations := clocations jstate;
                     clocations_buf_size := 2 ^ 27;
                     clocations_count := 2 ^ 26 |}).
Proof.
  intros _ Hc Hb. unfold record_constant, enlarge_if_needed. rewrite Hc, Hb.
  reflexivity.
Qed.

(** The append to a state whose capacity field is ahead of its array, with
    the count at the end of the array: no request, and the store is outside
    the array. *)
Lemma record_constant_outside junk jstate loc :
  clocations_count jstate < clocations_buf_size jstate →
  clocations_count jstate = Z.of_nat (List.length (clocations jstate)) →
  record_constant junk jstate loc = Fail Fault_clocations.
Proof.
  intros Hlt Hc. unfold record_constant, enlarge_if_needed.
  destruct (Z.leb_spec (clocations_buf_size jstate) (clocations_count jstate)); [lia|].
  destruct (Z.leb_spec 0 (clocations_count jstate)); [|done].
  destruct (Z.ltb_spec (clocations_count jstate)
              (Z.of_nat (List.length (clocations jstate)))); [lia|done].
Qed.

Lemma record_constants_app junk jstate l1 l2 :
  record_constants junk jstate (l1 ++ l2)
  = match record_constants junk jstate l1 with
    | Ok (pg_return _, jstate') => record_constants junk jstate' l2
    | r => r
    end.
Proof.
  revert jstate. induction l1 as [|loc l1 IH]; intros jstate; simpl; [done|].
  destruct (record_constant junk jstate loc) as [[[[]|] jstate']|f]; [apply IH|done|done].
Qed.

(** A sequence of appends that ends with at most 2^26 entries. *)
Lemma record_constants_inv junk locs jstate :
  jstate_inv jstate →
  clocations_count jstate + Z.of_nat (List.length locs) ≤ 2 ^ 26 →
  ∃ jstate',
    record_constants junk jstate locs = Ok (pg_return (), jstate')
    ∧ jstate_inv jstate'
    ∧ clocations_count jstate' = clocations_count jstate + Z.of_nat (List.length locs)
    ∧ entries jstate' = entries jstate ++ map unresolved locs.
Proof.
  revert jstate. induction locs as [|loc locs IH]; intros jstate Hinv Hroom; simpl.
  { exists jstate. rewrite app_nil_r. split; [done|]. split; [done|]. split; [lia|done]. }
  simpl in Hroom.
  destruct (record_constant_inv junk jstate loc Hinv) as (j1&->&Hinv'&Hc&Hlt&Hat&Htake&_); [lia|].
  destruct (IH j1 Hinv') as (j2&->&G1&G2&G3); [lia|].
  exists j2. split; [done|]. split; [done|]. split; [lia|].
  rewrite G3. unfold entries. rewrite Hc.
  replace (Z.to_nat (clocations_count jstate + 1))
    with (S (Z.to_nat (clocations_count jstate))) by (destruct Hinv as (?&?&?); lia).
  erewrite take_S_r by done. rewrite Htake. by rewrite <- app_assoc.
Qed.

(** The capacity stays 32 doubled some number of times, and 32 or less than
    twice the count. *)
Lemma record_constant_capacity junk jstate loc jstate' :
  jstate_inv jstate →
  clocations_count jstate < 2 ^ 26 →
  capacity_bounded jstate →
  record_constant junk jstate loc = Ok (pg_return (), jstate') →
  capacity_bounded jstate'.
Proof.
  intros Hinv Hroom ([k Hk]&Hsmall) Hr.
  destruct (record_constant_inv junk jstate loc Hinv Hroom) as (j&Hj&_&Hc&_&_&_&Hsize).
  rewrite Hr in Hj. injection Hj as <-.
  destruct Hinv as (Hb&Hcount&_). unfold capacity_bounded. rewrite Hc, Hsize.
  destruct (Z.leb_spec (clocations_buf_size jstate) (clocations_count jstate)).
  - split; [|lia]. exists (S k). rewrite Hk, Nat2Z.inj_succ, Z.pow_succ_r; lia.
  - split; [by exists k|]. lia.
Qed.

Lemma record_constants_capacity junk locs jstate jstate' :
  jstate_inv jstate →
  clocations_count jstate + Z.of_nat (List.length locs) ≤ 2 ^ 26 →
  capacity_bounded jstate →
  record_constants junk jstate locs = Ok (pg_return (), jstate') →
  capacity_bounded jstate'.
Proof.
  revert jstate. induction locs as [|loc locs IH]; intros jstate Hinv Hroom Hcap; simpl.
  { by intros [= <-]. }
  simpl in Hroom.
  destruct (record_constant_inv junk jstate loc Hinv) as (j1&Hj1&Hinv'&Hc&_); [lia|].
  rewrite Hj1. apply IH; [done|lia|].
  eapply record_constant_capacity; [exact Hinv|lia|exact Hcap|exact Hj1].
Qed.

Lemma jstate_init_inv junk : jstate_inv (jstate_init junk).
Proof. unfold jstate_inv. simpl. lia. Qed.

Lemma jstate_init_capacity junk : capacity_bounded (jstate_init junk).
Proof. split; [by exists 0%nat|by left]. Qed.

(** A power of two between 2^26 and 2^27 is 2^26. *)
Lemma capacity_full jstate :
  jstate_inv jstate →
  capacity_bounded jstate →
  clocations_count jstate = 2 ^ 26 →
  clocations_buf_size jstate = 2 ^ 26.
Proof.
  intros (_&Hc&_) ([k Hk]&Hsmall) Hcount. rewrite Hcount in *.
  assert (2 ^ 21 ≤ 2 ^ Z.of_nat k < 2 ^ 22) as [Hlo Hhi] by lia.
  apply Z.pow_le_mono_r_iff in Hlo; [|lia|lia].
  apply Z.pow_lt_mono_r_iff in Hhi; [|lia|lia].
  replace (Z.of_nat k) with 21 in Hk by lia. lia.
Qed.

Lemma constants_of_walked children :
  constants_of (T_Walked children) = constants_of_children children.
Proof.
  induction children as [|[n|] children IH]; simpl in *; [done| |done].
  by rewrite IH.
Qed.

Lemma constants_of_children_app l1 l2 :
  constants_of_children (l1 ++ l2) = constants_of_children l1 ++ constants_of_children l2.
Proof.
  induction l1 as [|[n|] l1 IH]; simpl; [done| |done]. by rewrite IH, app_assoc.
Qed.

(** Induction on a tree, with the property for all children of a walked
    node. *)
Lemma Node_children_ind (P : Node → Prop) :
  (∀ loc, P (A_Const loc)) →
  (∀ children,
     Forall (λ c, match c with Some n => P n | None => True end) children →
     P (T_Walked children)) →
  (∀ below, P (T_Unrecognized below)) →
  ∀ node, P node.
Proof.
  intros HA HW HU. fix IH 1. intros [loc|children|below].
  - apply HA.
  - apply HW. induction children as [|[n|] children IHc]; constructor; auto.
  - apply HU.
Qed.

(** The generic walker on a walked node, one child at a time. *)
Lemma raw_expression_tree_walker_cons {C}
    (walker : option Node → C → result (pg_call bool * C)) child children context :
  raw_expression_tree_walker (T_Walked (child :: children)) walker context
  = match walker child context with
    | Ok (pg_return r, context') =>
        if r then Ok (pg_return true, context')
        else raw_expression_tree_walker (T_Walked children) walker context'
    | Ok (pg_error, context') => Ok (pg_error, context')
    | Fail f => Fail f
    end.
Proof. reflexivity. Qed.

(** Children on which the callback returns false are passed: the walk goes
    on with the children after them. *)
Lemma raw_expression_tree_walker_app {C}
    (walker : option Node → C → result (pg_call bool * C)) l1 l2 context context' :
  raw_expression_tree_walker (T_Walked l1) walker context
  = Ok (pg_return false, context') →
  raw_expression_tree_walker (T_Walked (l1 ++ l2)) walker context
  = raw_expression_tree_walker (T_Walked l2) walker context'.
Proof.
  revert context. induction l1 as [|c l1 IH]; intros context.
  { simpl. by intros [= <-]. }
  rewrite <- app_comm_cons, !raw_expression_tree_walker_cons.
  destruct (walker c context) as [[[[]|] c1]|f]; try done. apply IH.
Qed.

Lemma const_record_walker_node_unfold junk node jstate :
  const_record_walker_node junk node jstate =
  match
    match node with
    | A_Const loc =>
        if 0 <=? loc then record_constant junk jstate loc else Ok (pg_return (), jstate)
    | _ => Ok (pg_return (), jstate)
    end
  with
  | Fail f => Fail f
  | Ok (pg_error, jstate) => Ok (pg_error, jstate)
  | Ok (pg_return _, jstate) =>
      match raw_expression_tree_walker node (const_record_walker junk) jstate with
      | Fail f => Fail f
      | Ok (pg_return r, jstate') => Ok (pg_return r, jstate')
      | Ok (pg_error, jstate') => Ok (pg_return false, jstate')
      end
  end.
Proof. by destruct node. Qed.

(** The walk of a node from a state with room for its constants records the
    constants of [constants_of], one append after the other, and returns
    false. *)
Lemma const_record_walker_node_spec junk node jstate :
  jstate_inv jstate →
  clocations_count jstate + Z.of_nat (List.length (constants_of node)) ≤ 2 ^ 26 →
  ∃ jstate',
    record_constants junk jstate (constants_of node) = Ok (pg_return (), jstate')
    ∧ const_record_walker_node junk node jstate = Ok (pg_return false, jstate').
Proof.
  revert jstate. induction node as [loc|children IH|below] using Node_children_ind;
    intros jstate Hinv Hroom.
  - rewrite const_record_walker_node_unfold. simpl in *.
    destruct (0 <=? loc); simpl in *; [|by exists jstate].
    destruct (record_constant_inv junk jstate loc Hinv) as (j1&->&_); [lia|].
    by exists j1.
  - rewrite constants_of_walked in *. rewrite const_record_walker_node_unfold.
    cut (∃ jstate',
           record_constants junk jstate (constants_of_children children)
           = Ok (pg_return (), jstate')
           ∧ raw_expression_tree_walker (T_Walked children) (const_record_walker junk) jstate
             = Ok (pg_return false, jstate')).
    { intros (j&Hj&->). by exists j. }
    revert jstate Hinv Hroom.
    induction IH as [|c children Hc _ IHc]; intros jstate Hinv Hroom.
    { by exists jstate. }
    rewrite raw_expression_tree_walker_cons.
    destruct c as [n|]; simpl in Hroom.
    + rewrite length_app in Hroom.
      destruct (Hc jstate Hinv) as (j1&Hr1&Hw1); [lia|].
      destruct (record_constants_inv junk (constants_of n) jstate Hinv) as (j1'&Hr1'&Hinv1&Hc1&_);
        [lia|].
      rewrite Hr1 in Hr1'. injection Hr1' as <-.
      destruct (IHc j1 Hinv1) as (j2&Hr2&Hw2); [lia|].
      exists j2. split.
      * cbn [constants_of_children]. by rewrite record_constants_app, Hr1.
      * change (const_record_walker junk (Some n) jstate)
          with (const_record_walker_node junk n jstate).
        rewrite Hw1. exact Hw2.
    + destruct (IHc jstate Hinv Hroom) as (j2&Hr2&Hw2).
      exists j2. split; [exact Hr2|exact Hw2].
  - by exists jstate.
Qed.

Lemma const_record_walker_spec junk node jstate :
  jstate_inv jstate →
  clocations_count jstate
  + Z.of_nat (List.length (constants_of_children [node])) ≤ 2 ^ 26 →
  ∃ jstate',
    record_constants junk jstate (constants_of_children [node]) = Ok (pg_return (), jstate')
    ∧ const_record_walker junk node jstate = Ok (pg_return false, jstate').
Proof.
  destruct node as [n|]; simpl; [|by exists jstate].
  rewrite app_nil_r. apply const_record_walker_node_spec.
Qed.

(** An error leaves [const_record_walker] only from its [A_Const] branch, on
    a full array. *)
Lemma const_record_walker_node_error junk node jstate jstate' :
  const_record_walker_node junk node jstate = Ok (pg_error, jstate') →
  (∃ loc, node = A_Const loc)
  ∧ clocations_buf_size jstate ≤ clocations_count jstate.
Proof.
  rewrite const_record_walker_node_unfold. destruct node as [loc|children|below].
  - destruct (0 <=? loc).
    + unfold record_constant, enlarge_if_needed.
      destruct (Z.leb_spec (clocations_buf_size jstate) (clocations_count jstate)).
      * intros _. split; [by exists loc|done].
      * destruct (_ && _); done.
    + done.
  - by destruct (raw_expression_tree_walker _ _ _) as [[[[]|] ?]|?].
  - done.
Qed.

Lemma const_record_walker_init_no_error junk tree jstate' :
  const_record_walker junk tree (jstate_init junk) ≠ Ok (pg_error, jstate').
Proof.
  destruct tree as [n|]; simpl; [|done].
  intros [_ H]%const_record_walker_node_error. simpl in H. lia.
Qed.

(** The walk of the children of a walked node, from a state with room for
    their constants. *)
Lemma const_record_walker_children_spec junk children jstate :
  jstate_inv jstate →
  clocations_count jstate
  + Z.of_nat (List.length (constants_of_children children)) ≤ 2 ^ 26 →
  ∃ jstate',
    record_constants junk jstate (constants_of_children children)
    = Ok (pg_return (), jstate')
    ∧ raw_expression_tree_walker (T_Walked children) (const_record_walker junk) jstate
      = Ok (pg_return false, jstate').
Proof.
  revert jstate. induction children as [|c children IH]; intros jstate Hinv Hroom.
  { by exists jstate. }
  rewrite raw_expression_tree_walker_cons.
  change (c :: children) with ([c] ++ children) in *.
  rewrite constants_of_children_app, length_app in *.
  destruct (const_record_walker_spec junk c jstate Hinv) as (j1&Hr1&Hw1); [lia|].
  destruct (record_constants_inv junk (constants_of_children [c]) jstate Hinv)
    as (j1'&Hr1'&Hinv1&Hc1&_); [lia|].
  rewrite Hr1 in Hr1'. injection Hr1' as <-.
  destruct (IH j1 Hinv1) as (j2&Hr2&Hw2); [lia|].
  exists j2. split.
  - by rewrite record_constants_app, Hr1.
  - rewrite Hw1. exact Hw2.
Qed.

(** A walked node with one child: the walk of the child, with its error
    flushed. *)
Lemma const_record_walker_node_single junk c jstate :
  const_record_walker_node junk (T_Walked [Some c]) jstate
  = match const_record_walker_node junk c jstate with
    | Fail f => Fail f
    | Ok (pg_return r, jstate') => Ok (pg_return r, jstate')
    | Ok (pg_error, jstate') => Ok (pg_return false, jstate')
    end.
Proof.
  rewrite (const_record_walker_node_unfold junk (T_Walked [Some c])).
  rewrite raw_expression_tree_walker_cons.
  change (const_record_walker junk (Some c) jstate)
    with (const_record_walker_node junk c jstate).
  by destruct (const_record_walker_node junk c jstate) as [[[[]|] ?]|?].
Qed.

(** A node on which the generic walker fails does not change the walk of the
    node above it. *)
Lemma const_record_walker_skips_unrecognized junk before below after jstate :
  const_record_walker junk
    (Some (T_Walked (before ++ Some (T_Unrecognized below) :: after))) jstate
  = const_record_walker junk (Some (T_Walked (before ++ after))) jstate.
Proof.
  unfold const_record_walker. rewrite !const_record_walker_node_unfold.
  cut (raw_expression_tree_walker
         (T_Walked (before ++ Some (T_Unrecognized below) :: after))
         (const_record_walker junk) jstate
       = raw_expression_tree_walker (T_Walked (before ++ after))
           (const_record_walker junk) jstate).
  { by intros ->. }
  revert jstate. induction before as [|c before IH]; intros jstate.
  { by rewrite app_nil_l, raw_expression_tree_walker_cons. }
  rewrite <- !app_comm_cons, !raw_expression_tree_walker_cons.
  destruct (const_record_walker junk c jstate) as [[[[]|] j1]|f]; done || apply IH.
Qed.

Lemma select_targets_constants start n :
  constants_of_children (select_target <$> seq start n)
  = (λ i, 7 + 3 * Z.of_nat i) <$> seq start n.
Proof.
  revert start. induction n as [|n IH]; intros start; [done|].
  cbn [seq fmap list_fmap constants_of_children select_target].
  rewrite <- IH. cbn [constants_of].
  destruct (Z.leb_spec 0 (7 + 3 * Z.of_nat start)); [|lia]. done.
Qed.


(** ** qsort with comp_location *)

#[global] Instance comp_location_total : Total (cmp_le comp_location).
Proof.
  intros a b. unfold cmp_le, comp_location.
  destruct (Z.ltb_spec (location a) (location b)), (Z.ltb_spec (location b) (location a));
    lia.
Qed.

#[global] Instance comp_location_trans : Transitive (cmp_le comp_location).
Proof.
  intros a b c. unfold cmp_le, comp_location.
  destruct (Z.ltb_spec (location a) (location b)), (Z.ltb_spec (location b) (location a)),
    (Z.ltb_spec (location b) (location c)), (Z.ltb_spec (location c) (location b)),
    (Z.ltb_spec (location a) (location c)), (Z.ltb_spec (location c) (location a)); lia.
Qed.

Lemma comp_location_le a b : cmp_le comp_location a b ↔ location a ≤ location b.
Proof.
  unfold cmp_le, comp_location.
  destruct (Z.ltb_spec (location a) (location b)), (Z.ltb_spec (location b) (location a)); lia.
Qed.

Lemma qsort_Permutation {A} (cmp : A → A → Z) l : qsort cmp l ≡ₚ l.
Proof. apply merge_sort_Permutation. Qed.

Lemma qsort_Sorted l : Sorted (cmp_le comp_location) (qsort comp_location l).
Proof. apply Sorted_merge_sort, _. Qed.

(** On entries as the collector writes them (all of length -1), the sorted
    array is the same whatever the sort does with entries that compare
    equal. *)
Lemma qsort_unique l l' :
  Forall (λ s, length s = -1) l →
  Sorted (cmp_le comp_location) l' → l' ≡ₚ l →
  l' = qsort comp_location l.
Proof.
  intros Hl Hs Hp. apply (Sorted_unique_strong (cmp_le comp_location)).
  - intros a b Ha Hb Hab%comp_location_le Hba%comp_location_le.
    rewrite Forall_forall in Hl.
    assert (length a = -1) by (apply Hl; by rewrite <- Hp).
    assert (length b = -1) by (apply Hl; by rewrite <- (qsort_Permutation comp_location l)).
    destruct a, b; simpl in *. f_equal; lia.
  - done.
  - apply qsort_Sorted.
  - by rewrite Hp, qsort_Permutation.
Qed.

(** ** fill_in_constant_lengths and generate_normalized_query as a whole *)

(** The entries as the resolver loop meets them. *)
Lemma sorted_entries_Permutation jstate :
  (if 1 <? clocations_count jstate
   then qsort comp_location (entries jstate) else entries jstate) ≡ₚ entries jstate.
Proof. destruct (1 <? _); [apply qsort_Permutation|done]. Qed.

Lemma resolve_lengths_length query last toks locs locs' :
  resolve_lengths query last toks locs = Ok locs' →
  List.length locs' = List.length locs.
Proof.
  intros H%resolve_lengths_locations.
  by rewrite <- (length_map location locs'), H, length_map.
Qed.

Lemma fill_in_constant_lengths_entries scanner_tokens jstate query jstate' :
  fill_in_constant_lengths scanner_tokens jstate query = Ok jstate' →
  resolve_lengths query (-1) (scanner_tokens query)
    (if 1 <? clocations_count jstate
     then qsort comp_location (entries jstate) else entries jstate)
  = Ok (entries jstate').
Proof.
  unfold fill_in_constant_lengths. fold (entries jstate).
  destruct (resolve_lengths _ _ _ _) as [locs'|] eqn:Hr; [|done]. simpl.
  intros [= <-]. f_equal. unfold entries. simpl.
  apply resolve_lengths_length in Hr.
  assert (List.length locs' = List.length (entries jstate)) as Hlen.
  { rewrite Hr. apply Permutation_length, sorted_entries_Permutation. }
  unfold entries in Hlen. rewrite length_take in Hlen.
  destruct (decide (Z.to_nat (clocations_count jstate)
                    ≤ List.length (clocations jstate))%nat).
  - rewrite take_app_le by lia. rewrite take_ge by lia. done.
  - rewrite drop_ge by lia. rewrite app_nil_r. rewrite take_ge by lia. done.
Qed.

Lemma generate_normalized_query_unfold scanner_tokens jstate query query_len :
  generate_normalized_query scanner_tokens jstate query query_len =
  (locs' ← resolve_lengths query (-1) (scanner_tokens query)
             (if 1 <? clocations_count jstate
              then qsort comp_location (entries jstate) else entries jstate);
   st ← rewrite_constants query query_len rewriter_init locs';
   rewrite_tail query query_len st).
Proof.
  unfold generate_normalized_query.
  destruct (fill_in_constant_lengths scanner_tokens jstate query) as [jstate'|f] eqn:Hf.
  - rewrite (fill_in_constant_lengths_entries _ _ _ _ Hf). done.
  - unfold fill_in_constant_lengths in Hf. fold (entries jstate) in Hf.
    destruct (resolve_lengths _ _ _ _); simpl in *; [done|]. by injection Hf as ->.
Qed.

(** Every run that returns gives a text of the length it reports, which is
    the length of the source less the bytes of the entries replaced plus one
    byte for each of them, and is not above the length of the source. *)
Lemma rewrite_account query query_len locs st out n :
  rewrite_constants query query_len rewriter_init locs = Ok st →
  rewrite_tail query query_len st = Ok (out, n) →
  n = Z.of_nat (List.length out)
  ∧ n = query_len - replaced_bytes locs + Z.of_nat (List.length (replaced_spans locs))
  ∧ n ≤ query_len.
Proof.
  intros H1 H2.
  apply rewrite_constants_account in H1 as (G1&G2&G3); [|done..].
  apply rewrite_tail_Ok in H2 as (T1&T2&T3&_); [|done].
  simpl in G3. repeat split; [done|lia|done].
Qed.

(** On tokens that lie inside the text, every length that the resolver fills
    in is at least 1 and ends inside the text. *)
Lemma resolve_lengths_inside query :
  cstring query →
  ∀ locs last pos toks locs',
    tokens_from pos (strlen query) toks →
    Forall (λ s, length s < 0) locs →
    resolve_lengths query last toks locs = Ok locs' →
    Forall (λ s, replaced s → 1 ≤ length s ∧ location s + length s ≤ strlen query) locs'.
Proof.
  intros Hq. induction locs as [|s locs IH]; intros last pos toks locs' Htok Hall; simpl.
  { intros [= <-]. constructor. }
  apply Forall_cons in Hall as [Hs Hall].
  destruct (Z.ltb_spec (location s) 0); [done|].
  destruct (location s <=? last).
  - intros (l&Hl&->)%fmap_Ok_inv. constructor; [unfold replaced; lia|]. by eapply IH.
  - destruct (lex_constant query (location s) toks) as [[len|] toks'] eqn:Hlex.
    + destruct (lex_constant_inside _ _ _ _ _ _ Hq H Htok Hlex) as (G1&G2&G3).
      intros (l&Hl&->)%fmap_Ok_inv. constructor; [done|]. by eapply IH.
    + intros [= <-]. constructor; [unfold replaced; lia|].
      eapply Forall_impl; [exact Hall|]. unfold replaced. simpl. lia.
Qed.

Lemma non_overlapping_spans n locs pos :
  non_overlapping_from pos locs →
  Forall (λ s, replaced s → 1 ≤ length s ∧ location s + length s ≤ n) locs →
  pos ≤ n →
  spans_from pos n locs.
Proof.
  revert pos. induction locs as [|s locs IH]; intros pos Hno Hall Hpos; simpl in *; [done|].
  apply Forall_cons in Hall as [Hs Hall].
  destruct (decide (replaced s)) as [Hr|Hr]; [|by apply IH].
  destruct Hno as [H1 H2]. destruct (Hs Hr). repeat split; [done..|]. apply IH; done.
Qed.

Lemma spans_from_non_overlapping n locs pos :
  spans_from pos n locs → non_overlapping_from pos locs.
Proof.
  revert pos. induction locs as [|s locs IH]; intros pos; simpl; [done|].
  destruct (decide (replaced s)); [|by auto]. intros (?&?&?). auto.
Qed.

(** The loop and the code after it, on entries that do not overlap, are not
    empty and lie inside the text. *)
Lemma rewrite_spans query locs :
  cstring query →
  spans_from 0 (strlen query) locs →
  ∃ st out n,
    rewrite_constants query (strlen query) rewriter_init locs = Ok st
    ∧ rewrite_tail query (strlen query) st = Ok (out, n).
Proof.
  intros Hq Hsp. rewrite (strlen_cstring _ Hq) in *.
  destruct (rewrite_constants_spans query rewriter_init locs rewriter_init_inv Hsp)
    as (st&Hst&Hinv&Hb).
  destruct (rewrite_tail_spans query st Hinv Hb) as (out&n&Ht). eauto.
Qed.

(** Every run of [generate_normalized_query] that returns: the account of
    its result in terms of the entries that [fill_in_constant_lengths] has
    left. *)
Lemma generate_normalized_query_account scanner_tokens jstate query query_len out n :
  generate_normalized_query scanner_tokens jstate query query_len = Ok (out, n) →
  ∃ jstate',
    fill_in_constant_lengths scanner_tokens jstate query = Ok jstate'
    ∧ n = Z.of_nat (List.length out)
    ∧ n = query_len - replaced_bytes (entries jstate')
          + Z.of_nat (List.length (replaced_spans (entries jstate')))
    ∧ n ≤ query_len.
Proof.
  unfold generate_normalized_query.
  destruct (fill_in_constant_lengths scanner_tokens jstate query) as [jstate'|] eqn:Hf;
    [|done].
  simpl. fold (entries jstate').
  destruct (rewrite_constants query query_len rewriter_init (entries jstate'))
    as [st|] eqn:Hst; [|done].
  simpl. intros Ht. exists jstate'. split; [done|]. by eapply rewrite_account.
Qed.

(** A run on entries that the resolver leaves without overlap. *)
Lemma generate_normalized_query_spans scanner_tokens jstate query jstate' :
  cstring query →
  fill_in_constant_lengths scanner_tokens jstate query = Ok jstate' →
  spans_from 0 (strlen query) (entries jstate') →
  ∃ out n,
    generate_normalized_query scanner_tokens jstate query (strlen query) = Ok (out, n).
Proof.
  intros Hq Hf Hsp. unfold generate_normalized_query. rewrite Hf. simpl.
  fold (entries jstate').
  destruct (rewrite_spans query (entries jstate') Hq Hsp) as (st&out&n&->&Ht).
  simpl. eauto.
Qed.

Lemma fill_in_constant_lengths_Ok scanner_tokens jstate query locs' :
  resolve_lengths query (-1) (scanner_tokens query)
    (if 1 <? clocations_count jstate
     then qsort comp_location (entries jstate) else entries jstate)
  = Ok locs' →
  ∃ jstate', fill_in_constant_lengths scanner_tokens jstate query = Ok jstate'
             ∧ entries jstate' = locs'.
Proof.
  intros Hr. unfold fill_in_constant_lengths. fold (entries jstate). rewrite Hr. simpl.
  eexists. split; [done|].
  pose proof (fill_in_constant_lengths_entries scanner_tokens jstate query) as H.
  unfold fill_in_constant_lengths in H. fold (entries jstate) in H. rewrite Hr in H.
  simpl in H. specialize (H _ eq_refl). by injection H as <-.
Qed.

(** Under the contract of the parser and the scanner, on entries as the
    collector writes them, the resolver leaves entries without overlap. *)
Lemma fill_in_constant_lengths_located scanner_tokens jstate query :
  cstring query →
  tokens_wf query (scanner_tokens query) →
  Forall (λ s, length s = -1 ∧ 0 ≤ location s) (entries jstate) →
  constants_located (scanner_tokens query) (map location (entries jstate)) →
  signs_merged query (scanner_tokens query) (map location (entries jstate)) →
  ∃ jstate',
    fill_in_constant_lengths scanner_tokens jstate query = Ok jstate'
    ∧ spans_from 0 (strlen query) (entries jstate').
Proof.
  intros Hq Htok Hall Hloc Hsm.
  destruct (resolve_lengths_located query (map location (entries jstate)) Hq
              (if 1 <? clocations_count jstate
               then qsort comp_location (entries jstate) else entries jstate)
              (-1) 0 (scanner_tokens query)) as (locs'&Hr&Hsp); [done| | | |done|].
  - apply strlen_nonneg.
  - rewrite sorted_entries_Permutation. rewrite Forall_forall in Hall |- *.
    intros s Hs. destruct (Hall s Hs). repeat split; [lia|done|].
    by apply list_elem_of_fmap_2.
  - intros loc Hin _. by apply Hloc.
  - destruct (fill_in_constant_lengths_Ok _ _ _ _ Hr) as (jstate'&Hf&<-). eauto.
Qed.

(** ** The entries that the collector leaves *)

Lemma constants_of_nonneg node : Forall (λ loc, 0 ≤ loc) (constants_of node).
Proof.
  induction node as [loc|children IH|below] using Node_children_ind.
  - simpl. destruct (Z.leb_spec 0 loc); repeat constructor. done.
  - rewrite constants_of_walked.
    induction IH as [|[n|] children Hc _ IHc]; simpl; [constructor| |done].
    by apply Forall_app.
  - constructor.
Qed.

Lemma constants_of_children_nonneg l : Forall (λ loc, 0 ≤ loc) (constants_of_children l).
Proof.
  induction l as [|[n|] l IH]; simpl; [constructor| |done].
  apply Forall_app. split; [apply constants_of_nonneg|done].
Qed.

(** After the walk from the initial state of a tree with at most 2^26
    constants, the entries are the constants of the tree, in the order of the
    walk, each with length -1. *)
Lemma const_record_walker_entries junk tree :
  Z.of_nat (List.length (constants_of_children [tree])) ≤ 2 ^ 26 →
  ∃ jstate,
    const_record_walker junk tree (jstate_init junk) = Ok (pg_return false, jstate)
    ∧ jstate_inv jstate
    ∧ clocations_count jstate = Z.of_nat (List.length (constants_of_children [tree]))
    ∧ entries jstate = map unresolved (constants_of_children [tree]).
Proof.
  intros Hroom.
  destruct (const_record_walker_spec junk tree (jstate_init junk)) as (jstate&Hr&Hw);
    [apply jstate_init_inv|change (clocations_count (jstate_init junk)) with 0; lia|].
  destruct (record_constants_inv junk (constants_of_children [tree]) (jstate_init junk))
    as (j&Hj&H1&H2&H3);
    [apply jstate_init_inv|change (clocations_count (jstate_init junk)) with 0; lia|].
  rewrite Hr in Hj. injection Hj as <-.
  change (clocations_count (jstate_init junk)) with 0 in H2.
  exists jstate. split; [done|]. split; [done|]. split; [lia|]. by rewrite H3.
Qed.

Lemma map_location_unresolved locs : map location (map unresolved locs) = locs.
Proof. induction locs as [|loc locs IH]; simpl; [done|]. by rewrite IH. Qed.

(** ** A location recorded twice *)

(** An array of at most one entry is sorted as it is: the test
    [clocations_count > 1] in front of the sort only saves the call. *)
Lemma sorted_entries_qsort jstate :
  (if 1 <? clocations_count jstate
   then qsort comp_location (entries jstate) else entries jstate)
  = qsort comp_location (entries jstate).
Proof.
  destruct (Z.ltb_spec 1 (clocations_count jstate)) as [|Hle]; [done|].
  assert (List.length (entries jstate) ≤ 1)%nat as Hlen.
  { unfold entries. rewrite length_take. lia. }
  by destruct (entries jstate) as [|s [|s' l]]; [..|simpl in Hlen; lia].
Qed.

Lemma Sorted_twice {A} (R : relation A) x l2 l1 :
  R x x → Sorted R (l1 ++ x :: l2) → Sorted R (l1 ++ x :: x :: l2).
Proof.
  intros Hx. induction l1 as [|a l1 IH]; simpl.
  - intros Hs. constructor; [done|]. by constructor.
  - intros Hs. apply Sorted_inv in Hs as [Hs Hhd]. constructor; [by apply IH|].
    destruct l1; simpl in *; apply HdRel_inv in Hhd; by constructor.
Qed.

(** Sorting an array in which an entry [x] of the array comes once more puts
    the second [x] next to the first. *)
Lemma qsort_twice x l l' :
  Forall (λ s, length s = -1) l → x ∈ l → l' ≡ₚ x :: l →
  ∃ l1 l2, qsort comp_location l = l1 ++ x :: l2
           ∧ qsort comp_location l' = l1 ++ x :: x :: l2.
Proof.
  intros Hall Hx Hp.
  assert (x ∈ qsort comp_location l) as Hin by (by rewrite qsort_Permutation).
  apply list_elem_of_split in Hin as (l1&l2&Hsplit).
  exists l1, l2. split; [done|].
  assert (Forall (λ s, length s = -1) (x :: l)) as Hall'.
  { constructor; [|done]. rewrite Forall_forall in Hall. by apply Hall. }
  transitivity (qsort comp_location (x :: l)).
  - apply qsort_unique; [done|apply qsort_Sorted|by rewrite qsort_Permutation].
  - symmetry. apply qsort_unique; [done| |].
    + apply Sorted_twice; [apply comp_location_le; lia|].
      rewrite <- Hsplit. apply qsort_Sorted.
    + rewrite <- Permutation_middle. constructor.
      by rewrite <- Hsplit, qsort_Permutation.
Qed.

(** The outcome of [generate_normalized_query] is the same with and without
    a second entry for a location. *)
Lemma generate_normalized_query_twice scanner_tokens jstate jstate2 x query query_len :
  Forall (λ s, length s = -1) (entries jstate) →
  x ∈ entries jstate →
  entries jstate2 ≡ₚ x :: entries jstate →
  generate_normalized_query scanner_tokens jstate2 query query_len
  = generate_normalized_query scanner_tokens jstate query query_len.
Proof.
  intros Hall Hx Hp. rewrite !generate_normalized_query_unfold, !sorted_entries_qsort.
  destruct (qsort_twice x _ _ Hall Hx Hp) as (l1&l2&->&->).
  rewrite resolve_lengths_twice.
  destruct (resolve_lengths query (-1) (scanner_tokens query) (l1 ++ x :: l2)) as [r|f];
    [|done].
  simpl. change (Ok ?a ≫= ?k) with (k a). cbv beta.
  rewrite rewrite_constants_insert_ignored; [done|].
  rewrite Forall_forall in Hall. rewrite (Hall x Hx). lia.
Qed.

(** ** The end of input *)

Lemma fill_in_constant_lengths_total scanner_tokens jstate query :
  Forall (λ s, 0 ≤ location s) (entries jstate) →
  ∃ jstate', fill_in_constant_lengths scanner_tokens jstate query = Ok jstate'.
Proof.
  intros Hall.
  destruct (resolve_lengths_total query
              (if 1 <? clocations_count jstate
               then qsort comp_location (entries jstate) else entries jstate)
              (-1) (scanner_tokens query)) as [locs' Hr].
  { by rewrite sorted_entries_Permutation. }
  destruct (fill_in_constant_lengths_Ok _ _ _ _ Hr) as (jstate'&Hf&_). eauto.
Qed.

(** The entries at or beyond an offset that the scanner does not reach keep
    their length -1. *)
Lemma fill_in_constant_lengths_beyond scanner_tokens jstate query jstate' bound :
  Forall (λ t, yylloc t < bound) (scanner_tokens query) →
  Forall (λ s, length s = -1) (entries jstate) →
  fill_in_constant_lengths scanner_tokens jstate query = Ok jstate' →
  Forall (λ s, bound ≤ location s → length s = -1) (entries jstate').
Proof.
  intros Htoks Hall Hf%fill_in_constant_lengths_entries.
  apply (resolve_lengths_beyond _ bound) in Hf; [|done].
  assert (Forall (λ s, length s = -1)
            (if 1 <? clocations_count jstate
             then qsort comp_location (entries jstate) else entries jstate)) as Hall'.
  { by rewrite sorted_entries_Permutation. }
  induction Hf as [|s s' l l' Hs _ IH]; [constructor|].
  apply Forall_cons in Hall' as [Hlen Hall'].
  constructor; [|by apply IH].
  intros Hb. destruct Hs as [->|?]; [done|lia].
Qed.

(** * The claims *)

Lemma cstring_check s : forallb (λ c, negb (Ascii.eqb c NUL)) s = true → cstring s.
Proof.
  induction s as [|c s IH]; simpl; [constructor|].
  intros [Hc Hs]%andb_prop. constructor; [|by apply IH].
  apply Ascii.eqb_neq. by destruct (Ascii.eqb c NUL).
Qed.

Lemma where_one_cstring : cstring where_one.
Proof. apply cstring_check. reflexivity. Qed.

Lemma where_minus_two_cstring : cstring where_minus_two.
Proof. apply cstring_check. reflexivity. Qed.

Lemma where_jstate_entries : entries where_jstate = [unresolved 10].
Proof. reflexivity. Qed.

Lemma where_twice_jstate_entries :
  entries where_twice_jstate = [unresolved 10; unresolved 10].
Proof. reflexivity. Qed.

(** C1.  In [fill_in_constant_lengths], when the byte at the location of a
    constant is [-], the loop takes exactly one more token after the first
    token that starts at the location or later, and the length runs from the
    sign to the end of that second token; without the sign it takes the first
    token only.  So [WHERE x = 1] and [WHERE x = -2] normalise to the same
    text, with one placeholder for the constant. *)
Theorem negative_constant_merged :
  (∀ query loc pos pre t t2 post,
     cstring query → 0 ≤ loc →
     tokens_from pos (strlen query) (pre ++ t :: t2 :: post) →
     Forall (λ p, yylloc p < loc) pre → loc ≤ yylloc t →
     char_at query loc = "-"%char →
     lex_constant query loc (pre ++ t :: t2 :: post)
     = (Some (tok_end t2 - loc), post))
  ∧ (∀ query loc pos pre t post,
       cstring query → 0 ≤ loc →
       tokens_from pos (strlen query) (pre ++ t :: post) →
       Forall (λ p, yylloc p < loc) pre → loc ≤ yylloc t →
       char_at query loc ≠ "-"%char →
       lex_constant query loc (pre ++ t :: post)
       = (Some (tok_end t - loc), post))
  ∧ pg_query_normalize example_junk example_scanner (example_parser where_tree)
      where_one
    = Returns (list_ascii_of_string "WHERE x = ?")
  ∧ pg_query_normalize example_junk example_scanner (example_parser where_tree)
      where_minus_two
    = Returns (list_ascii_of_string "WHERE x = ?").
Proof.
  split; [|split; [|split; vm_compute; reflexivity]].
  - intros query loc pos pre t t2 post Hq Hloc Htok Hpre Hle Hc.
    rewrite lex_constant_found by done. rewrite Hc. simpl.
    apply tokens_from_app in Htok as (pos'&_&(T1&T2&T3&U1&U2&U3&_)).
    rewrite (strlen_cstring _ Hq) in U3.
    rewrite strlen_scanbuf; [done|done|lia|lia].
  - intros query loc pos pre t post Hq Hloc Htok Hpre Hle Hc.
    rewrite lex_constant_found by done.
    apply Ascii.eqb_neq in Hc. rewrite Hc.
    apply tokens_from_app in Htok as (pos'&_&(T1&T2&T3&_)).
    rewrite (strlen_cstring _ Hq) in T3.
    rewrite strlen_scanbuf; [done|done|lia|lia].
Qed.

Lemma negative_constant_merged_witness :
  lex_constant where_minus_two 10 where_minus_two_tokens = (Some 2, [])
  ∧ lex_constant where_one 10 where_one_tokens = (Some 1, []).
Proof.
  split.
  - apply (proj1 negative_constant_merged where_minus_two 10 0
             [tok 0 5; tok 6 7; tok 8 9] (tok 10 11) (tok 11 12) []).
    + exact where_minus_two_cstring.
    + lia.
    + simpl. lia.
    + repeat constructor; simpl; lia.
    + simpl. lia.
    + reflexivity.
  - apply (proj1 (proj2 negative_constant_merged) where_one 10 0
             [tok 0 5; tok 6 7; tok 8 9] (tok 10 11) []).
    + exact where_one_cstring.
    + lia.
    + simpl. lia.
    + repeat constructor; simpl; lia.
    + simpl. lia.
    + intros H. vm_compute in H. discriminate H.
Defined.

(** C2.  The resolver passes over an entry whose location is not beyond the
    last location it resolved and leaves its length as it is; so of two
    entries the later one keeps its length -1 when its location is not beyond
    that of the earlier one.  The rewriter passes over an entry of length -1.
    So an array in which a location is recorded a second time gives the
    outcome of [generate_normalized_query] that the array without the second
    entry gives: the constant is replaced once, as [WHERE x = 1] shows when
    its constant is recorded twice. *)
Theorem duplicate_location_rewritten_once :
  (∀ query last toks s locs,
     0 ≤ location s → location s ≤ last →
     resolve_lengths query last toks (s :: locs)
     = (cons s <$> resolve_lengths query last toks locs))
  ∧ (∀ query toks locs locs' i j si sj,
       Forall (λ s, length s = -1) locs →
       resolve_lengths query (-1) toks locs = Ok locs' →
       (i < j)%nat → locs' !! i = Some si → locs' !! j = Some sj →
       location sj ≤ location si →
       length sj = -1)
  ∧ (∀ query query_len st s,
       length s = -1 → rewrite_constant query query_len st s = Ok st)
  ∧ (∀ scanner_tokens jstate jstate2 x query query_len,
       Forall (λ s, length s = -1) (entries jstate) →
       x ∈ entries jstate →
       entries jstate2 ≡ₚ x :: entries jstate →
       generate_normalized_query scanner_tokens jstate2 query query_len
       = generate_normalized_query scanner_tokens jstate query query_len)
  ∧ pg_query_normalize example_junk example_scanner (example_parser where_tree_twice)
      where_one
    = Returns (list_ascii_of_string "WHERE x = ?").
Proof.
  split; [|split; [|split; [|split; [|vm_compute; reflexivity]]]].
  - intros query last toks s locs Hnn Hle. simpl.
    destruct (Z.ltb_spec (location s) 0); [lia|].
    destruct (Z.leb_spec (location s) last); [done|lia].
  - intros query toks locs locs' i j si sj Hall Hres Hij Hi Hj Hle.
    pose proof (resolve_lengths_duplicates _ _ _ _ _ _ _ _ _ Hres Hij Hi Hj Hle) as Hin.
    rewrite Forall_forall in Hall. apply Hall. by eapply list_elem_of_lookup_2.
  - intros. apply rewrite_constant_ignored. lia.
  - intros. by eapply generate_normalized_query_twice.
Qed.

Lemma duplicate_location_rewritten_once_witness :
  resolve_lengths where_one 10 where_one_tokens [unresolved 10; unresolved 3]
  = (cons (unresolved 10) <$> resolve_lengths where_one 10 where_one_tokens [unresolved 3])
  ∧ length (unresolved 10) = -1
  ∧ rewrite_constant where_one 11 rewriter_init (unresolved 10) = Ok rewriter_init
  ∧ generate_normalized_query example_scanner where_twice_jstate where_one 11
    = generate_normalized_query example_scanner where_jstate where_one 11.
Proof.
  destruct duplicate_location_rewritten_once as (Hskip&Hdup&Hign&Htwice&_).
  split; [|split; [|split]].
  - apply (Hskip where_one 10 where_one_tokens (unresolved 10) [unresolved 3]);
      simpl; lia.
  - apply (Hdup where_one where_one_tokens
             [unresolved 10; unresolved 10]
             [{| location := 10; length := 1 |}; unresolved 10]
             0%nat 1%nat {| location := 10; length := 1 |} (unresolved 10)).
    + repeat constructor.
    + reflexivity.
    + lia.
    + reflexivity.
    + reflexivity.
    + simpl. lia.
  - apply (Hign where_one 11 rewriter_init (unresolved 10)). reflexivity.
  - apply (Htwice example_scanner where_jstate where_twice_jstate (unresolved 10)
             where_one 11).
    + rewrite where_jstate_entries. repeat constructor.
    + rewrite where_jstate_entries. apply list_elem_of_here.
    + rewrite where_jstate_entries, where_twice_jstate_entries. reflexivity.
Defined.

(** C3.  The text that [generate_normalized_query] returns is not longer than
    the source text: this holds of every run that returns, for
    [generate_normalized_query] and for [pg_query_normalize]; and under the
    contract of the parser and the scanner (tokens inside the text, constants
    at token starts as far as the scanner gets, a sign and its magnitude
    recorded as one constant) [pg_query_normalize] does return, for a tree
    of at most 2^26 constants, which is what the array can hold. *)
Theorem normalized_query_not_longer :
  (∀ scanner_tokens jstate query query_len out n,
     generate_normalized_query scanner_tokens jstate query query_len = Ok (out, n) →
     n = Z.of_nat (List.length out) ∧ n ≤ query_len)
  ∧ (∀ junk scanner_tokens raw_parser input out,
       cstring input →
       pg_query_normalize junk scanner_tokens raw_parser input = Returns out →
       Z.of_nat (List.length out) ≤ Z.of_nat (List.length input))
  ∧ (∀ junk scanner_tokens raw_parser input tree,
       raw_parser input = inr tree →
       cstring input →
       Z.of_nat (List.length (constants_of_children [tree])) ≤ 2 ^ 26 →
       tokens_wf input (scanner_tokens input) →
       constants_located (scanner_tokens input) (constants_of_children [tree]) →
       signs_merged input (scanner_tokens input) (constants_of_children [tree]) →
       ∃ out,
         pg_query_normalize junk scanner_tokens raw_parser input = Returns out
         ∧ Z.of_nat (List.length out) ≤ Z.of_nat (List.length input)).
Proof.
  assert (∀ scanner_tokens jstate query query_len out n,
     generate_normalized_query scanner_tokens jstate query query_len = Ok (out, n) →
     n = Z.of_nat (List.length out) ∧ n ≤ query_len) as Hgen.
  { intros ?????? (jstate'&_&H1&_&H2)%generate_normalized_query_account. done. }
  assert (∀ junk scanner_tokens raw_parser input out,
       cstring input →
       pg_query_normalize junk scanner_tokens raw_parser input = Returns out →
       Z.of_nat (List.length out) ≤ Z.of_nat (List.length input)) as Hnorm.
  { intros junk scanner_tokens raw_parser input out Hq. unfold pg_query_normalize.
    destruct (raw_parser input) as [e|tree]; [done|].
    destruct (const_record_walker junk tree (jstate_init junk))
      as [[[r|] jstate]|f]; [|done|done].
    destruct (generate_normalized_query scanner_tokens jstate input (strlen input))
      as [[out' n]|f] eqn:Hg; [|done].
    intros [= <-]. apply Hgen in Hg as [-> ?].
    rewrite (strlen_cstring _ Hq) in *.
    unfold rb_tainted_str_new_cstr. rewrite length_take. lia. }
  split; [exact Hgen|]. split; [exact Hnorm|].
  intros junk scanner_tokens raw_parser input tree Hp Hq Hroom Htok Hloc Hsm.
  destruct (const_record_walker_entries junk tree Hroom) as (jstate&Hw&Hinv&Hcount&Hent).
  assert (∃ out, pg_query_normalize junk scanner_tokens raw_parser input = Returns out)
    as [out Hout].
  { unfold pg_query_normalize. rewrite Hp, Hw.
    destruct (fill_in_constant_lengths_located scanner_tokens jstate input)
      as (jstate'&Hf&Hsp); [done|done| | | |].
    - rewrite Hent. apply Forall_fmap.
      eapply Forall_impl; [apply constants_of_children_nonneg|]. done.
    - by rewrite Hent, map_location_unresolved.
    - by rewrite Hent, map_location_unresolved.
    - destruct (generate_normalized_query_spans _ _ _ _ Hq Hf Hsp) as (out&n&->). eauto. }
  exists out. split; [done|]. by eapply Hnorm.
Qed.

Lemma example_scanner_where_minus_two :
  example_scanner where_minus_two = where_minus_two_tokens.
Proof. reflexivity. Qed.

(** The contract holds of [WHERE x = -2] with its one constant at the sign. *)
Lemma where_minus_two_contract :
  cstring where_minus_two
  ∧ tokens_wf where_minus_two (example_scanner where_minus_two)
  ∧ constants_located (example_scanner where_minus_two) [10]
  ∧ signs_merged where_minus_two (example_scanner where_minus_two) [10].
Proof.
  rewrite example_scanner_where_minus_two.
  split; [apply cstring_check; reflexivity|].
  split; [unfold tokens_wf; simpl; lia|].
  split.
  - intros loc ->%list_elem_of_singleton. left. exists (tok 10 11).
    split; [|done]. do 3 apply list_elem_of_further. apply list_elem_of_here.
  - intros pre t t2 post Heq Hin%list_elem_of_singleton _.
    intros Ht2%list_elem_of_singleton.
    unfold where_minus_two_tokens in Heq.
    do 5 (destruct pre as [|? pre]; [simplify_eq/=|]); simplify_eq/=.
    by destruct pre.
Qed.

Lemma normalized_query_not_longer_witness :
  (11 = Z.of_nat (List.length normalized_where) ∧ 11 ≤ 12)
  ∧ Z.of_nat (List.length normalized_where) ≤ Z.of_nat (List.length where_one)
  ∧ ∃ out,
      pg_query_normalize example_junk example_scanner (example_parser where_tree)
        where_minus_two = Returns out
      ∧ Z.of_nat (List.length out) ≤ Z.of_nat (List.length where_minus_two).
Proof.
  destruct normalized_query_not_longer as (Hgen&Hnorm&Hreturns).
  destruct where_minus_two_contract as (Hq&Htok&Hloc&Hsm).
  split; [|split].
  - apply (Hgen example_scanner where_jstate where_minus_two 12 normalized_where 11).
    vm_compute. reflexivity.
  - apply (Hnorm example_junk example_scanner (example_parser where_tree)
             where_one normalized_where).
    + exact where_one_cstring.
    + vm_compute. reflexivity.
  - apply (Hreturns example_junk example_scanner (example_parser where_tree)
             where_minus_two where_tree).
    + reflexivity.
    + exact Hq.
    + simpl. lia.
    + exact Htok.
    + exact Hloc.
    + exact Hsm.
Defined.

(** C4.  When the scanner reaches the end of input before it returns a token
    that starts at the location of the current entry or later, or when it
    reaches it while the loop takes the token after a sign, the resolver
    stops: the run is not a failure, and the current entry and all entries
    after it are left as they are.  With their length -1 the rewriter passes
    over every one of them.  In [fill_in_constant_lengths] as a whole the
    end of input is no failure, and every entry at or beyond an offset that
    no token reaches keeps its length -1.  So [WHERE x = -2], with a scanner
    that ends after the sign, comes back as it is. *)
Theorem resolver_stops_at_end_of_input :
  (∀ query last toks s locs,
     0 ≤ location s → last < location s →
     Forall (λ t, yylloc t < location s) toks →
     resolve_lengths query last toks (s :: locs) = Ok (s :: locs))
  ∧ (∀ query last pre t s locs,
       0 ≤ location s → last < location s →
       Forall (λ p, yylloc p < location s) pre → location s ≤ yylloc t →
       char_at query (location s) = "-"%char →
       resolve_lengths query last (pre ++ [t]) (s :: locs) = Ok (s :: locs))
  ∧ (∀ query query_len st locs,
       Forall (λ s, length s = -1) locs →
       rewrite_constants query query_len st locs = Ok st)
  ∧ (∀ scanner_tokens jstate query,
       Forall (λ s, 0 ≤ location s) (entries jstate) →
       ∃ jstate', fill_in_constant_lengths scanner_tokens jstate query = Ok jstate')
  ∧ (∀ scanner_tokens jstate query jstate' bound,
       Forall (λ t, yylloc t < bound) (scanner_tokens query) →
       Forall (λ s, length s = -1) (entries jstate) →
       fill_in_constant_lengths scanner_tokens jstate query = Ok jstate' →
       Forall (λ s, bound ≤ location s → length s = -1) (entries jstate'))
  ∧ generate_normalized_query truncated_scanner where_jstate where_minus_two
      (strlen where_minus_two)
    = Ok (where_minus_two, 12).
Proof.
  split; [|split; [|split; [|split; [|split; [|vm_compute; reflexivity]]]]].
  4: apply fill_in_constant_lengths_total.
  4: apply fill_in_constant_lengths_beyond.
  - intros query last toks s locs Hnn Hlt Htoks. simpl.
    destruct (Z.ltb_spec (location s) 0); [lia|].
    destruct (Z.leb_spec (location s) last); [lia|].
    by rewrite lex_constant_eof.
  - intros query last pre t s locs Hnn Hlt Hpre Hle Hc. simpl.
    destruct (Z.ltb_spec (location s) 0); [lia|].
    destruct (Z.leb_spec (location s) last); [lia|].
    rewrite lex_constant_found by done. by rewrite Hc.
  - intros query query_len st locs Hall. apply rewrite_constants_ignored.
    eapply Forall_impl; [exact Hall|]. simpl. lia.
Qed.

Lemma resolver_stops_at_end_of_input_witness :
  resolve_lengths where_one (-1) [tok 0 5; tok 6 7] [unresolved 10; unresolved 3]
  = Ok [unresolved 10; unresolved 3]
  ∧ resolve_lengths where_minus_two (-1) (truncated_scanner where_minus_two)
      [unresolved 10; unresolved 11]
    = Ok [unresolved 10; unresolved 11]
  ∧ rewrite_constants where_minus_two 12 rewriter_init [unresolved 10; unresolved 11]
    = Ok rewriter_init
  ∧ (∃ jstate',
       fill_in_constant_lengths truncated_scanner beyond_jstate where_minus_two
       = Ok jstate')
  ∧ Forall (λ s, 11 ≤ location s → length s = -1) (entries beyond_jstate).
Proof.
  destruct resolver_stops_at_end_of_input as (Heof&Hsign&Hign&Htotal&Hbeyond&_).
  split; [|split; [|split; [|split]]].
  - apply (Heof where_one (-1) [tok 0 5; tok 6 7] (unresolved 10) [unresolved 3]).
    + simpl. lia.
    + simpl. lia.
    + repeat constructor; simpl; lia.
  - apply (Hsign where_minus_two (-1) [tok 0 5; tok 6 7; tok 8 9] (tok 10 11)
             (unresolved 10) [unresolved 11]).
    + simpl. lia.
    + simpl. lia.
    + repeat constructor; simpl; lia.
    + simpl. lia.
    + reflexivity.
  - apply (Hign where_minus_two 12 rewriter_init [unresolved 10; unresolved 11]).
    repeat constructor.
  - apply (Htotal truncated_scanner beyond_jstate where_minus_two).
    repeat constructor; simpl; lia.
  - apply (Hbeyond truncated_scanner beyond_jstate where_minus_two beyond_jstate 11).
    + repeat constructor; simpl; lia.
    + repeat constructor.
    + vm_compute. reflexivity.
Defined.

(** C5.  In [generate_normalized_query] the assertion inside the loop fails
    exactly when an entry to replace has [off - last_off - last_tok_len < 0].
    On tokens that lie inside the text, when the entries that the sort and
    the resolver leave do not overlap, the run passes every check: neither
    [Assert(len_to_wrt >= 0)] fails.  Under the contract of the parser and
    the scanner the entries that they leave do not overlap.  And a run that
    returns has met entries that do not overlap. *)
Theorem copy_length_never_negative :
  (∀ query query_len st s,
     rewrite_constant query query_len st s = Fail Assert_len_to_wrt
     ↔ 0 ≤ length s ∧ location s - last_off st - last_tok_len st < 0)
  ∧ (∀ scanner_tokens jstate query jstate',
       cstring query →
       tokens_wf query (scanner_tokens query) →
       Forall (λ s, length s = -1) (entries jstate) →
       fill_in_constant_lengths scanner_tokens jstate query = Ok jstate' →
       non_overlapping (entries jstate') →
       ∃ out n,
         generate_normalized_query scanner_tokens jstate query (strlen query)
         = Ok (out, n))
  ∧ (∀ scanner_tokens jstate query,
       cstring query →
       tokens_wf query (scanner_tokens query) →
       Forall (λ s, length s = -1 ∧ 0 ≤ location s) (entries jstate) →
       constants_located (scanner_tokens query) (map location (entries jstate)) →
       signs_merged query (scanner_tokens query) (map location (entries jstate)) →
       ∃ jstate',
         fill_in_constant_lengths scanner_tokens jstate query = Ok jstate'
         ∧ non_overlapping (entries jstate'))
  ∧ (∀ scanner_tokens jstate query query_len jstate' out n,
       fill_in_constant_lengths scanner_tokens jstate query = Ok jstate' →
       generate_normalized_query scanner_tokens jstate query query_len = Ok (out, n) →
       non_overlapping (entries jstate')).
Proof.
  split; [|split; [|split]].
  4: { intros scanner_tokens jstate query query_len jstate' out n Hf.
       unfold generate_normalized_query. rewrite Hf. simpl. fold (entries jstate').
       destruct (rewrite_constants query query_len rewriter_init (entries jstate'))
         as [st|] eqn:Hst; [|done].
       intros _. by eapply (rewrite_constants_non_overlapping _ _ rewriter_init). }
  - intros query query_len st s. unfold rewrite_constant.
    destruct (Z.ltb_spec (length s) 0).
    { split; [done|lia]. }
    destruct (Z.ltb_spec (location s - last_off st - last_tok_len st) 0).
    { split; [lia|done]. }
    destruct (memcpy_query _ _ _ _ _) as [chunk|] eqn:Hm; simpl.
    + destruct (query_len <? _); split; (done || lia).
    + unfold memcpy_query in Hm. destruct (_ && _) in Hm; [done|].
      injection Hm as <-. split; [done|lia].
  - intros scanner_tokens jstate query jstate' Hq Htok Hall Hf Hno.
    eapply generate_normalized_query_spans; [done..|].
    apply non_overlapping_spans; [done| |apply strlen_nonneg].
    eapply (resolve_lengths_inside query Hq); [exact Htok| |].
    2: by apply fill_in_constant_lengths_entries.
    rewrite sorted_entries_Permutation.
    eapply Forall_impl; [exact Hall|]. simpl. lia.
  - intros scanner_tokens jstate query Hq Htok Hall Hloc Hsm.
    destruct (fill_in_constant_lengths_located scanner_tokens jstate query)
      as (jstate'&Hf&Hsp); [done..|].
    exists jstate'. split; [done|]. by eapply spans_from_non_overlapping.
Qed.

Lemma where_minus_two_fill_in :
  fill_in_constant_lengths example_scanner where_jstate where_minus_two
  = Ok where_minus_two_filled.
Proof. vm_compute. reflexivity. Qed.

Lemma copy_length_never_negative_witness :
  (∃ out n,
     generate_normalized_query example_scanner where_jstate where_minus_two
       (strlen where_minus_two) = Ok (out, n))
  ∧ (∃ jstate',
      fill_in_constant_lengths example_scanner where_jstate where_minus_two
      = Ok jstate'
      ∧ non_overlapping (entries jstate'))
  ∧ non_overlapping (entries where_minus_two_filled).
Proof.
  destruct copy_length_never_negative as (_&Hpass&Hcontract&Hreturned).
  destruct where_minus_two_contract as (Hq&Htok&Hloc&Hsm).
  split; [|split].
  3: { apply (Hreturned example_scanner where_jstate where_minus_two 12
                where_minus_two_filled normalized_where 11).
       - exact where_minus_two_fill_in.
       - vm_compute. reflexivity. }
  - apply (Hpass example_scanner where_jstate where_minus_two where_minus_two_filled).
    + exact Hq.
    + exact Htok.
    + rewrite where_jstate_entries. repeat constructor.
    + exact where_minus_two_fill_in.
    + unfold non_overlapping. simpl. lia.
  - apply (Hcontract example_scanner where_jstate where_minus_two).
    + exact Hq.
    + exact Htok.
    + rewrite where_jstate_entries. repeat constructor; simpl; lia.
    + rewrite where_jstate_entries. exact Hloc.
    + rewrite where_jstate_entries. exact Hsm.
Defined.

(** The condition of C5 is needed: with a location inside a token the
    resolver leaves entries that overlap ([2, 7) and [6, 9)), and the
    assertion inside the loop fails. *)
Example misplaced_location_overlaps :
  (entries <$> fill_in_constant_lengths example_scanner misplaced_jstate where_minus_two)
  = Ok [{| location := 2; length := 5 |}; {| location := 6; length := 3 |}]
  ∧ generate_normalized_query example_scanner misplaced_jstate where_minus_two
      (strlen where_minus_two)
    = Fail Assert_len_to_wrt.
Proof. split; vm_compute; reflexivity. Qed.

(** C6.  With no entry in the array, [generate_normalized_query] returns the
    source text and its length; and [pg_query_normalize] returns its input
    when the walk of the tree records no constant. *)
Theorem no_constants_identity :
  (∀ scanner_tokens jstate query,
     cstring query →
     clocations_count jstate = 0 →
     generate_normalized_query scanner_tokens jstate query (strlen query)
     = Ok (query, strlen query))
  ∧ (∀ junk scanner_tokens raw_parser input tree,
       raw_parser input = inr tree →
       cstring input →
       constants_of_children [tree] = [] →
       pg_query_normalize junk scanner_tokens raw_parser input = Returns input).
Proof.
  assert (∀ scanner_tokens jstate query,
     cstring query →
     clocations_count jstate = 0 →
     generate_normalized_query scanner_tokens jstate query (strlen query)
     = Ok (query, strlen query)) as Hgen.
  { intros scanner_tokens jstate query Hq Hc.
    rewrite generate_normalized_query_unfold. unfold entries. rewrite Hc. simpl.
    unfold rewrite_tail. simpl. rewrite Z.sub_0_r.
    destruct (Z.ltb_spec (strlen query) 0); [pose proof (strlen_nonneg query); lia|].
    assert (memcpy_query query (strlen query) 0 0 (strlen query) = Ok query) as ->.
    { apply memcpy_query_Ok. rewrite (strlen_cstring _ Hq). split; [lia|].
      rewrite Nat2Z.id. change (Z.to_nat 0) with 0%nat.
      by rewrite drop_0, take_app_length. }
    simpl. by rewrite Z.ltb_irrefl. }
  split; [exact Hgen|].
  intros junk scanner_tokens raw_parser input tree Hp Hq Hnone.
  destruct (const_record_walker_entries junk tree) as (jstate&Hw&_&Hcount&_).
  { rewrite Hnone. simpl. lia. }
  rewrite Hnone in Hcount.
  unfold pg_query_normalize. rewrite Hp, Hw.
  rewrite Hgen by done. f_equal. unfold rb_tainted_str_new_cstr.
  rewrite (strlen_cstring _ Hq), Nat2Z.id. by rewrite take_ge.
Qed.

Lemma no_constants_identity_witness :
  generate_normalized_query example_scanner (jstate_init example_junk) where_one
    (strlen where_one)
  = Ok (where_one, strlen where_one)
  ∧ pg_query_normalize example_junk example_scanner
      (example_parser (Some (T_Walked [None; Some (A_Const (-1)); Some (T_Walked [])])))
      where_one
    = Returns where_one.
Proof.
  destruct no_constants_identity as (Hgen&Hnorm).
  split.
  - apply (Hgen example_scanner (jstate_init example_junk) where_one).
    + exact where_one_cstring.
    + reflexivity.
  - apply (Hnorm example_junk example_scanner _ where_one
             (Some (T_Walked [None; Some (A_Const (-1)); Some (T_Walked [])]))).
    + reflexivity.
    + exact where_one_cstring.
    + reflexivity.
Defined.

(** C7.  When the parser reports an error, [pg_query_normalize] raises the
    [ParseError] made of the message and the cursor position of that error,
    and returns no text; and an error that it raises is an error of the
    parser. *)
Theorem parse_failure_raised :
  (∀ junk scanner_tokens raw_parser input error_data,
     cstring input →
     raw_parser input = inl error_data →
     pg_query_normalize junk scanner_tokens raw_parser input
     = Raises {| error_message := message error_data;
                 error_cursorpos := cursorpos error_data |}
     ∧ ∀ out, pg_query_normalize junk scanner_tokens raw_parser input ≠ Returns out)
  ∧ (∀ junk scanner_tokens raw_parser input error,
       cstring input →
       pg_query_normalize junk scanner_tokens raw_parser input = Raises error →
       ∃ error_data,
         raw_parser input = inl error_data ∧ error = new_parse_error error_data).
Proof.
  split.
  - intros junk scanner_tokens raw_parser input error_data _ Hp.
    unfold pg_query_normalize. rewrite Hp. split; [done|]. by intros out.
  - intros junk scanner_tokens raw_parser input error _.
    unfold pg_query_normalize.
    destruct (raw_parser input) as [error_data|tree].
    + intros [= <-]. by exists error_data.
    + destruct (const_record_walker junk tree (jstate_init junk))
        as [[[r|] jstate]|f] eqn:Hw; [|by apply const_record_walker_init_no_error in Hw|done].
      by destruct (generate_normalized_query _ _ _ _) as [[? ?]|?].
Qed.

Lemma parse_failure_raised_witness :
  pg_query_normalize example_junk example_scanner failing_parser where_one
  = Raises {| error_message := "syntax error at or near SELEC"; error_cursorpos := 1 |}
  ∧ ∃ error_data,
      failing_parser where_one = inl error_data
      ∧ new_parse_error syntax_error = new_parse_error error_data.
Proof.
  destruct parse_failure_raised as (Hraise&Honly).
  split.
  - apply (Hraise example_junk example_scanner failing_parser where_one syntax_error).
    + exact where_one_cstring.
    + reflexivity.
  - apply (Honly example_junk example_scanner failing_parser where_one
             (new_parse_error syntax_error)).
    + exact where_one_cstring.
    + reflexivity.
Defined.

(** C8.  On a node that the generic walker does not recognize the walker
    reports an error; [const_record_walker] on that node absorbs it: it
    returns false and records nothing of what is below the node.  Within a
    walked node the children before and after such a node are visited as if
    it were not there.  On every tree whose constants the array has room for
    [const_record_walker] returns false and has recorded the constants of
    [constants_of], one append after the other, which leaves out what is
    below a failed node and nothing else. *)
Theorem walk_failure_absorbed :
  (∀ C (walker : option Node → C → result (pg_call bool * C)) below context,
     raw_expression_tree_walker (T_Unrecognized below) walker context
     = Ok (pg_error, context))
  ∧ (∀ junk below jstate,
       const_record_walker junk (Some (T_Unrecognized below)) jstate
       = Ok (pg_return false, jstate))
  ∧ (∀ junk before below after jstate,
       const_record_walker junk
         (Some (T_Walked (before ++ Some (T_Unrecognized below) :: after))) jstate
       = const_record_walker junk (Some (T_Walked (before ++ after))) jstate)
  ∧ (∀ junk node jstate,
       jstate_inv jstate →
       clocations_count jstate
       + Z.of_nat (List.length (constants_of_children [node])) ≤ 2 ^ 26 →
       ∃ jstate',
         record_constants junk jstate (constants_of_children [node])
         = Ok (pg_return (), jstate')
         ∧ const_record_walker junk node jstate = Ok (pg_return false, jstate'))
  ∧ (λ r, entries r.2)
      <$> const_record_walker example_junk (Some tree_with_failure)
            (jstate_init example_junk)
    = Ok [unresolved 3; unresolved 10].
Proof.
  split; [done|]. split; [done|]. split; [|split; [|vm_compute; reflexivity]].
  - intros junk before below after jstate.
    apply const_record_walker_skips_unrecognized.
  - intros. by apply const_record_walker_spec.
Qed.

Lemma walk_failure_absorbed_witness :
  ∃ jstate',
    record_constants example_junk (jstate_init example_junk)
      (constants_of_children [Some tree_with_failure])
    = Ok (pg_return (), jstate')
    ∧ const_record_walker example_junk (Some tree_with_failure) (jstate_init example_junk)
      = Ok (pg_return false, jstate').
Proof.
  apply (proj1 (proj2 (proj2 (proj2 walk_failure_absorbed)))
           example_junk (Some tree_with_failure) (jstate_init example_junk)).
  - unfold jstate_inv. simpl. lia.
  - simpl. lia.
Defined.

(** The walk of the targets of [SELECT 1, ..., 1] when there are 2^26 of
    them and one more, or two more: the array is full after 2^26, the
    request for the next target is refused and the error is flushed by the
    walk of that target's node, with the capacity field doubled; one target
    later the store is outside the array. *)
Lemma select_targets_walk junk n :
  Z.of_nat n = 2 ^ 26 →
  (∃ jstate,
     raw_expression_tree_walker (T_Walked (select_target <$> seq 0 (S n)))
       (const_record_walker junk) (jstate_init junk)
     = Ok (pg_return false, jstate)
     ∧ clocations_count jstate = 2 ^ 26
     ∧ clocations_buf_size jstate = 2 ^ 27
     ∧ Z.of_nat (List.length (clocations jstate)) = 2 ^ 26)
  ∧ raw_expression_tree_walker (T_Walked (select_target <$> seq 0 (S (S n))))
      (const_record_walker junk) (jstate_init junk)
    = Fail Fault_clocations.
Proof.
  intros Hn.
  destruct (const_record_walker_children_spec junk (select_target <$> seq 0 n)
              (jstate_init junk)) as (j1&Hr1&Hw1).
  { apply jstate_init_inv. }
  { rewrite select_targets_constants, length_fmap, length_seq.
    change (clocations_count (jstate_init junk)) with 0. lia. }
  rewrite select_targets_constants in Hr1.
  destruct (record_constants_inv junk ((λ i, 7 + 3 * Z.of_nat i) <$> seq 0 n)
              (jstate_init junk)) as (j&Hj&Hinv&Hcount&_).
  { apply jstate_init_inv. }
  { rewrite length_fmap, length_seq.
    change (clocations_count (jstate_init junk)) with 0. lia. }
  rewrite Hr1 in Hj. injection Hj as <-.
  rewrite length_fmap, length_seq in Hcount.
  change (clocations_count (jstate_init junk)) with 0 in Hcount.
  assert (clocations_count j1 = 2 ^ 26) as Hc by lia.
  assert (clocations_buf_size j1 = 2 ^ 26) as Hb.
  { apply capacity_full; [done| |done].
    eapply record_constants_capacity; [apply jstate_init_inv| |
      apply jstate_init_capacity|exact Hr1].
    rewrite length_fmap, length_seq.
    change (clocations_count (jstate_init junk)) with 0. lia. }
  assert (Z.of_nat (List.length (clocations j1)) = 2 ^ 26) as Hl.
  { destruct Hinv as (_&_&Hl). lia. }
  assert (const_record_walker junk (select_target n) j1
          = Ok (pg_return false,
                {| clocations := clocations j1;
                   clocations_buf_size := 2 ^ 27;
                   clocations_count := 2 ^ 26 |})) as Hrefused.
  { unfold select_target, const_record_walker.
    rewrite const_record_walker_node_single, const_record_walker_node_unfold.
    destruct (Z.leb_spec 0 (7 + 3 * Z.of_nat n)); [|lia].
    by rewrite record_constant_refused. }
  split.
  - exists {| clocations := clocations j1;
              clocations_buf_size := 2 ^ 27;
              clocations_count := 2 ^ 26 |}.
    split; [|split; [|split]]; [|reflexivity|reflexivity|exact Hl].
    replace (S n) with (n + 1)%nat by lia.
    rewrite seq_app, fmap_app, (raw_expression_tree_walker_app _ _ _ _ _ Hw1).
    cbn [seq fmap list_fmap]. rewrite Nat.add_0_l.
    rewrite raw_expression_tree_walker_cons, Hrefused. reflexivity.
  - replace (S (S n)) with (n + 2)%nat by lia.
    rewrite seq_app, fmap_app, (raw_expression_tree_walker_app _ _ _ _ _ Hw1).
    cbn [seq fmap list_fmap]. rewrite Nat.add_0_l.
    rewrite raw_expression_tree_walker_cons, Hrefused.
    rewrite raw_expression_tree_walker_cons.
    unfold select_target at 1, const_record_walker.
    rewrite const_record_walker_node_single, const_record_walker_node_unfold.
    destruct (Z.leb_spec 0 (7 + 3 * Z.of_nat (S n))); [|lia].
    rewrite record_constant_outside; [done|simpl; lia|simpl; lia].
Qed.

(** The same walks from the top of the tree, and [pg_query_normalize] on
    the larger tree. *)
Lemma select_list_walk junk n :
  Z.of_nat n = 2 ^ 26 →
  (∃ jstate,
     const_record_walker junk (select_list (S n)) (jstate_init junk)
     = Ok (pg_return false, jstate)
     ∧ clocations_count jstate = 2 ^ 26
     ∧ clocations_buf_size jstate = 2 ^ 27
     ∧ Z.of_nat (List.length (clocations jstate)) = 2 ^ 26)
  ∧ const_record_walker junk (select_list (S (S n))) (jstate_init junk)
    = Fail Fault_clocations
  ∧ ∀ scanner_tokens input,
      pg_query_normalize junk scanner_tokens (example_parser (select_list (S (S n))))
        input
      = Aborts Fault_clocations.
Proof.
  intros Hn.
  destruct (select_targets_walk junk n Hn) as ((jstate&Hw&Hc&Hb&Hl)&Hfault).
  unfold select_list.
  generalize dependent (select_target <$> seq 0 (S (S n))).
  generalize dependent (select_target <$> seq 0 (S n)).
  intros targets Hw targets' Hfault.
  assert (const_record_walker junk
            (Some (T_Walked [Some (T_Walked [Some (T_Walked targets')])]))
            (jstate_init junk)
          = Fail Fault_clocations) as Hwalk.
  { unfold const_record_walker.
    rewrite !const_record_walker_node_single, const_record_walker_node_unfold.
    by rewrite Hfault. }
  split; [|split; [exact Hwalk|]].
  - exists jstate. split; [|done].
    unfold const_record_walker.
    rewrite !const_record_walker_node_single, const_record_walker_node_unfold.
    by rewrite Hw.
  - intros scanner_tokens input. unfold pg_query_normalize, example_parser.
    by rewrite Hwalk.
Qed.

(** C9.  The array does not hold more than 2^26 entries: [repalloc] refuses
    the 2^30 bytes of the next doubling.  [const_record_walker] has doubled
    the capacity field before it asks, and the error is flushed by the walk
    of the node above the constant.  So after the walk of [SELECT 1, ..., 1]
    with 2^26 + 1 constants the capacity field is 2^27 over an array of 2^26
    cells that is full; with 2^26 + 2 constants the walk stores the last one
    past the end of the array, and so does [pg_query_normalize]. *)
Theorem count_beyond_refused_array junk :
  (∃ jstate,
     const_record_walker junk (select_list (S largest_array)) (jstate_init junk)
     = Ok (pg_return false, jstate)
     ∧ clocations_count jstate = 2 ^ 26
     ∧ clocations_buf_size jstate = 2 ^ 27
     ∧ Z.of_nat (List.length (clocations jstate)) = 2 ^ 26)
  ∧ const_record_walker junk (select_list (S (S largest_array))) (jstate_init junk)
    = Fail Fault_clocations
  ∧ ∀ scanner_tokens input,
      pg_query_normalize junk scanner_tokens
        (example_parser (select_list (S (S largest_array)))) input
      = Aborts Fault_clocations.
Proof.
  apply select_list_walk. unfold largest_array. apply Z2Nat.id. lia.
Qed.

(** C10.  The length that [generate_normalized_query] returns is the length
    of the text it returns, and it is the length of the source less the sum
    of the lengths of the entries of length >= 0 plus the number of these
    entries.  On tokens that lie inside the text and entries that the
    resolver leaves without overlap, the run returns, and its text is
    shorter than the source when one of the entries holds two bytes or
    more. *)
Theorem normalized_length_account :
  (∀ scanner_tokens jstate query query_len out n,
     generate_normalized_query scanner_tokens jstate query query_len = Ok (out, n) →
     ∃ jstate',
       fill_in_constant_lengths scanner_tokens jstate query = Ok jstate'
       ∧ n = Z.of_nat (List.length out)
       ∧ n = query_len - replaced_bytes (entries jstate')
             + Z.of_nat (List.length (replaced_spans (entries jstate'))))
  ∧ (∀ scanner_tokens jstate query jstate',
       cstring query →
       tokens_wf query (scanner_tokens query) →
       Forall (λ s, length s = -1) (entries jstate) →
       fill_in_constant_lengths scanner_tokens jstate query = Ok jstate' →
       non_overlapping (entries jstate') →
       ∃ out n,
         generate_normalized_query scanner_tokens jstate query (strlen query)
         = Ok (out, n)
         ∧ n = Z.of_nat (List.length out)
         ∧ n = strlen query - replaced_bytes (entries jstate')
               + Z.of_nat (List.length (replaced_spans (entries jstate')))
         ∧ ((∃ s, s ∈ entries jstate' ∧ 2 ≤ length s) → n < strlen query)).
Proof.
  split.
  - intros scanner_tokens jstate query query_len out n
      (jstate'&Hf&H1&H2&_)%generate_normalized_query_account. eauto.
  - intros scanner_tokens jstate query jstate' Hq Htok Hall Hf Hno.
    assert (Forall (λ s, replaced s → 1 ≤ length s ∧ location s + length s ≤ strlen query)
              (entries jstate')) as Hin.
    { eapply (resolve_lengths_inside query Hq); [exact Htok| |].
      2: by apply fill_in_constant_lengths_entries.
      rewrite sorted_entries_Permutation.
      eapply Forall_impl; [exact Hall|]. simpl. lia. }
    destruct (generate_normalized_query_spans scanner_tokens jstate query jstate')
      as (out&n&Hg); [done..| |].
    { apply non_overlapping_spans; [done..|apply strlen_nonneg]. }
    exists out, n. split; [done|].
    destruct (generate_normalized_query_account _ _ _ _ _ _ Hg) as (j&Hj&H1&H2&_).
    rewrite Hf in Hj. injection Hj as <-.
    split; [done|]. split; [done|].
    intros Hbig.
    destruct (replaced_bytes_count (entries jstate')) as [_ Hlt].
    { eapply Forall_impl; [exact Hin|]. simpl. tauto. }
    specialize (Hlt Hbig). lia.
Qed.

Lemma normalized_length_account_witness :
  (∃ jstate',
     fill_in_constant_lengths example_scanner where_jstate where_minus_two = Ok jstate'
     ∧ 11 = Z.of_nat (List.length normalized_where)
     ∧ 11 = 12 - replaced_bytes (entries jstate')
            + Z.of_nat (List.length (replaced_spans (entries jstate'))))
  ∧ ∃ out n,
      generate_normalized_query example_scanner where_jstate where_minus_two
        (strlen where_minus_two) = Ok (out, n)
      ∧ n = Z.of_nat (List.length out)
      ∧ n = strlen where_minus_two - replaced_bytes (entries where_minus_two_filled)
            + Z.of_nat (List.length (replaced_spans (entries where_minus_two_filled)))
      ∧ ((∃ s, s ∈ entries where_minus_two_filled ∧ 2 ≤ length s)
         → n < strlen where_minus_two).
Proof.
  destruct normalized_length_account as (Haccount&Hshorter).
  destruct where_minus_two_contract as (Hq&Htok&_&_).
  split.
  - apply (Haccount example_scanner where_jstate where_minus_two 12 normalized_where 11).
    vm_compute. reflexivity.
  - apply (Hshorter example_scanner where_jstate where_minus_two where_minus_two_filled).
    + exact Hq.
    + exact Htok.
    + rewrite where_jstate_entries. repeat constructor.
    + exact where_minus_two_fill_in.
    + unfold non_overlapping. simpl. lia.
Defined.

(** * Further properties of the code *)

(** ** comp_location and the sort *)

(** X1.  [comp_location] is a comparator as [qsort] needs one: it returns
    -1, 0 or 1, swapping its arguments negates the result, the result is 0
    exactly for equal locations and -1 exactly for a smaller location, and
    "not after" is transitive. *)
Theorem comp_location_consistent (a b c : pgssLocationLen) :
  (comp_location a b = -1 ∨ comp_location a b = 0 ∨ comp_location a b = 1)
  ∧ comp_location b a = - comp_location a b
  ∧ (comp_location a b = 0 ↔ location a = location b)
  ∧ (comp_location a b = -1 ↔ location a < location b)
  ∧ (comp_location a b ≤ 0 → comp_location b c ≤ 0 → comp_location a c ≤ 0).
Proof.
  unfold comp_location. cbv zeta. case_compare; repeat split; intros; lia.
Qed.

Lemma Sorted_location l :
  Sorted (cmp_le comp_location) l → Sorted Z.le (map location l).
Proof.
  induction 1 as [|s l _ IH Hhd]; simpl; constructor; [done|].
  destruct Hhd as [|s' l' Hle]; simpl; constructor. by apply comp_location_le.
Qed.

(** X2.  [fill_in_constant_lengths] leaves the entries in ascending order of
    location ("this also ensures the items are sorted by location"); their
    locations are those it was given, each as often as before; the count, the
    capacity, the allocated length and the cells beyond the count stay as
    they are. *)
Theorem fill_in_constant_lengths_sorts scanner_tokens jstate query jstate' :
  fill_in_constant_lengths scanner_tokens jstate query = Ok jstate' →
  Sorted Z.le (map location (entries jstate'))
  ∧ map location (entries jstate') ≡ₚ map location (entries jstate)
  ∧ clocations_count jstate' = clocations_count jstate
  ∧ clocations_buf_size jstate' = clocations_buf_size jstate
  ∧ List.length (clocations jstate') = List.length (clocations jstate)
  ∧ drop (Z.to_nat (clocations_count jstate)) (clocations jstate')
    = drop (Z.to_nat (clocations_count jstate)) (clocations jstate).
Proof.
  intros Hf. pose proof (fill_in_constant_lengths_entries _ _ _ _ Hf) as Hr.
  pose proof (resolve_lengths_locations _ _ _ _ _ Hr) as Hloc.
  pose proof (resolve_lengths_length _ _ _ _ _ Hr) as Hlen.
  rewrite sorted_entries_qsort in Hloc, Hlen.
  split; [|split].
  - rewrite Hloc. apply Sorted_location, qsort_Sorted.
  - rewrite Hloc. by rewrite qsort_Permutation.
  - unfold fill_in_constant_lengths in Hf. fold (entries jstate) in Hf.
    destruct (resolve_lengths _ _ _ _) as [locs'|] eqn:Hr'; [|done].
    clear Hr Hloc Hlen. simpl in Hf. injection Hf as <-. simpl.
    assert (List.length locs' = List.length (entries jstate)) as Hl.
    { rewrite (resolve_lengths_length _ _ _ _ _ Hr').
      apply Permutation_length, sorted_entries_Permutation. }
    unfold entries in Hl. rewrite length_take in Hl.
    split; [done|]. split; [done|]. split.
    + rewrite length_app, length_drop. lia.
    + destruct (decide (Z.to_nat (clocations_count jstate)
                        ≤ List.length (clocations jstate))%nat).
      * rewrite drop_app_length' by lia. done.
      * rewrite (drop_ge (clocations jstate)) by lia. rewrite app_nil_r.
        rewrite drop_ge by lia. done.
Qed.

Lemma misplaced_fill_in :
  fill_in_constant_lengths example_scanner misplaced_jstate where_minus_two
  = Ok misplaced_filled.
Proof. vm_compute. reflexivity. Qed.

Lemma fill_in_constant_lengths_sorts_witness :
  Sorted Z.le (map location (entries misplaced_filled))
  ∧ map location (entries misplaced_filled) ≡ₚ map location (entries misplaced_jstate).
Proof.
  destruct (fill_in_constant_lengths_sorts example_scanner misplaced_jstate
              where_minus_two misplaced_filled misplaced_fill_in) as (H1&H2&_).
  split; [exact H1|exact H2].
Defined.

(** X3.  The outcome of [generate_normalized_query] does not depend on the
    order in which the locations were recorded: two working states whose
    entries, all of length -1, are the same up to order give the same
    result. *)
Theorem generate_normalized_query_order scanner_tokens jstate jstate2 query query_len :
  Forall (λ s, length s = -1) (entries jstate) →
  entries jstate2 ≡ₚ entries jstate →
  generate_normalized_query scanner_tokens jstate2 query query_len
  = generate_normalized_query scanner_tokens jstate query query_len.
Proof.
  intros Hall Hp. rewrite !generate_normalized_query_unfold, !sorted_entries_qsort.
  f_equal. f_equal.
  apply qsort_unique; [done|apply qsort_Sorted|by rewrite qsort_Permutation].
Qed.

Lemma generate_normalized_query_order_witness :
  generate_normalized_query example_scanner shuffled_jstate where_minus_two 12
  = generate_normalized_query example_scanner sorted_jstate where_minus_two 12.
Proof.
  apply (generate_normalized_query_order example_scanner sorted_jstate shuffled_jstate
           where_minus_two 12).
  - repeat constructor.
  - change (entries shuffled_jstate) with [unresolved 10; unresolved 6; unresolved 10].
    change (entries sorted_jstate) with [unresolved 6; unresolved 10; unresolved 10].
    apply perm_swap.
Defined.

(** ** The resolver *)

Lemma replaced_spans_ignored locs :
  Forall (λ s, length s < 0) locs → replaced_spans locs = [].
Proof.
  induction 1 as [|s locs Hs _ IH]; [done|].
  rewrite replaced_spans_cons. by rewrite decide_False by (unfold replaced; lia).
Qed.

(** The entries that the resolver has given a length come in strictly
    ascending order of location, all beyond [last]. *)
Lemma resolve_lengths_ascending query locs last toks locs' :
  Forall (λ s, length s < 0) locs →
  resolve_lengths query last toks locs = Ok locs' →
  Forall (λ s, last < location s) (replaced_spans locs')
  ∧ StronglySorted (λ a b, location a < location b) (replaced_spans locs').
Proof.
  revert last toks locs'. induction locs as [|s locs IH]; intros last toks locs' Hall; simpl.
  { intros [= <-]. split; constructor. }
  apply Forall_cons in Hall as [Hs Hall].
  destruct (location s <? 0); [done|].
  destruct (Z.leb_spec (location s) last).
  - intros (l&Hl&->)%fmap_Ok_inv. rewrite replaced_spans_cons.
    rewrite decide_False by (unfold replaced; lia). by eapply IH.
  - destruct (lex_constant query (location s) toks) as [[len|] toks'].
    + intros (l&Hl&->)%fmap_Ok_inv. destruct (IH _ _ _ Hall Hl) as [Hgt Hsorted].
      rewrite replaced_spans_cons.
      destruct (decide (replaced (set_length s len))).
      * split.
        -- constructor; [simpl; lia|].
           eapply Forall_impl; [exact Hgt|]. simpl. lia.
        -- constructor; done.
      * split; [|done]. eapply Forall_impl; [exact Hgt|]. simpl. lia.
    + intros [= <-].
      rewrite replaced_spans_ignored by (by constructor). split; constructor.
Qed.

(** X4.  Whatever the scanner returns, the entries that
    [fill_in_constant_lengths] has given a length (it was given them with
    length -1) have strictly ascending locations: no location is resolved
    twice. *)
Theorem resolved_locations_ascend scanner_tokens jstate query jstate' :
  Forall (λ s, length s = -1) (entries jstate) →
  fill_in_constant_lengths scanner_tokens jstate query = Ok jstate' →
  StronglySorted (λ a b, location a < location b) (replaced_spans (entries jstate'))
  ∧ NoDup (map location (replaced_spans (entries jstate'))).
Proof.
  intros Hall Hf%fill_in_constant_lengths_entries.
  assert (Forall (λ s, length s < 0)
            (if 1 <? clocations_count jstate
             then qsort comp_location (entries jstate) else entries jstate)) as Hall'.
  { rewrite sorted_entries_Permutation. eapply Forall_impl; [exact Hall|]. simpl. lia. }
  destruct (resolve_lengths_ascending _ _ _ _ _ Hall' Hf) as [_ Hs].
  split; [done|].
  induction Hs as [|s l _ IH Hlt]; simpl; constructor; [|done].
  intros (s'&Heq&Hin)%list_elem_of_fmap. rewrite Forall_forall in Hlt.
  specialize (Hlt _ Hin). lia.
Qed.

Lemma resolved_locations_ascend_witness :
  StronglySorted (λ a b, location a < location b)
    (replaced_spans (entries misplaced_filled)).
Proof.
  apply (resolved_locations_ascend example_scanner misplaced_jstate where_minus_two
           misplaced_filled).
  - repeat constructor.
  - exact misplaced_fill_in.
Defined.

(** A length that the loop assigns ends where a token ends. *)
Lemma lex_constant_token_end query loc pos toks len toks' :
  cstring query → 0 ≤ loc →
  tokens_from pos (strlen query) toks →
  lex_constant query loc toks = (Some len, toks') →
  ∃ t, t ∈ toks ∧ loc ≤ yylloc t ∧ loc + len = tok_end t.
Proof.
  intros Hq Hloc. rewrite (strlen_cstring _ Hq).
  revert pos. induction toks as [|t toks IH]; intros pos Htok; simpl; [done|].
  destruct Htok as (H1&H2&H3&H4).
  destruct (Z.leb_spec loc (yylloc t)).
  - destruct (Ascii.eqb _ _).
    + destruct toks as [|t2 toks'']; [done|]. destruct H4 as (G1&G2&G3&G4).
      intros [= <- <-]. rewrite strlen_scanbuf by (done || lia).
      exists t2. split; [|lia]. apply list_elem_of_further, list_elem_of_here.
    + intros [= <- <-]. rewrite strlen_scanbuf by (done || lia).
      exists t. split; [|lia]. apply list_elem_of_here.
  - intros Hlex. destruct (IH _ H4 Hlex) as (t'&Hin&?&?).
    exists t'. split; [|done]. by apply list_elem_of_further.
Qed.

Lemma resolve_lengths_token_ends query :
  cstring query →
  ∀ locs last pos toks locs',
    tokens_from pos (strlen query) toks →
    Forall (λ s, length s < 0) locs →
    resolve_lengths query last toks locs = Ok locs' →
    Forall (λ s, replaced s →
                 ∃ t, t ∈ toks ∧ location s ≤ yylloc t
                      ∧ location s + length s = tok_end t) locs'.
Proof.
  intros Hq. induction locs as [|s locs IH]; intros last pos toks locs' Htok Hall; simpl.
  { intros [= <-]. constructor. }
  apply Forall_cons in Hall as [Hs Hall].
  destruct (Z.ltb_spec (location s) 0); [done|].
  destruct (location s <=? last).
  - intros (l&Hl&->)%fmap_Ok_inv. constructor; [unfold replaced; lia|]. by eapply IH.
  - destruct (lex_constant query (location s) toks) as [[len|] toks'] eqn:Hlex.
    + destruct (lex_constant_inside _ _ _ _ _ _ Hq H Htok Hlex) as (_&_&Htok').
      destruct (lex_constant_token_end _ _ _ _ _ _ Hq H Htok Hlex) as (t&Hin&Hle&Hend).
      destruct (lex_constant_suffix _ _ _ _ _ Hlex) as [pre ->].
      intros (l&Hl&->)%fmap_Ok_inv. constructor; [by exists t|].
      eapply Forall_impl; [by eapply IH|]. simpl.
      intros s' Hs' Hr. destruct (Hs' Hr) as (t'&Hin'&?&?).
      exists t'. split; [|done]. apply elem_of_app. by right.
    + intros [= <-]. constructor; [unfold replaced; lia|].
      eapply Forall_impl; [exact Hall|]. unfold replaced. simpl. lia.
Qed.

(** X5.  On tokens that lie inside the text, every length that
    [fill_in_constant_lengths] fills in is at least 1, and the entry ends
    inside the text, exactly where a token of the scanner ends that starts at
    the location or after it. *)
Theorem resolved_spans_end_at_tokens scanner_tokens jstate query jstate' :
  cstring query →
  tokens_wf query (scanner_tokens query) →
  Forall (λ s, length s = -1) (entries jstate) →
  fill_in_constant_lengths scanner_tokens jstate query = Ok jstate' →
  Forall (λ s, replaced s →
               1 ≤ length s
               ∧ location s + length s ≤ strlen query
               ∧ ∃ t, t ∈ scanner_tokens query ∧ location s ≤ yylloc t
                      ∧ location s + length s = tok_end t)
    (entries jstate').
Proof.
  intros Hq Htok Hall Hf%fill_in_constant_lengths_entries.
  assert (Forall (λ s, length s < 0)
            (if 1 <? clocations_count jstate
             then qsort comp_location (entries jstate) else entries jstate)) as Hall'.
  { rewrite sorted_entries_Permutation. eapply Forall_impl; [exact Hall|]. simpl. lia. }
  pose proof (resolve_lengths_inside query Hq _ _ _ _ _ Htok Hall' Hf) as H1.
  pose proof (resolve_lengths_token_ends query Hq _ _ _ _ _ Htok Hall' Hf) as H2.
  rewrite Forall_forall in H1, H2. apply Forall_forall. intros s Hin Hr.
  destruct (H1 s Hin Hr). split; [done|]. split; [done|]. by apply H2.
Qed.

Lemma resolved_spans_end_at_tokens_witness :
  Forall (λ s, replaced s →
               1 ≤ length s
               ∧ location s + length s ≤ strlen where_minus_two
               ∧ ∃ t, t ∈ example_scanner where_minus_two ∧ location s ≤ yylloc t
                      ∧ location s + length s = tok_end t)
    (entries misplaced_filled).
Proof.
  destruct where_minus_two_contract as (Hq&Htok&_&_).
  apply (resolved_spans_end_at_tokens example_scanner misplaced_jstate where_minus_two
           misplaced_filled).
  - exact Hq.
  - exact Htok.
  - repeat constructor.
  - exact misplaced_fill_in.
Defined.

(** ** The rewriter *)

(** On entries that are not empty and lie inside the text, the loop stays
    inside its buffers: it passes, or it stops at its assertion. *)
Lemma rewrite_constants_safe query st locs :
  Forall (λ s, replaced s →
               1 ≤ length s ∧ location s + length s ≤ Z.of_nat (List.length query)) locs →
  rewriter_inv st →
  quer_loc st ≤ Z.of_nat (List.length query) →
  (∃ st', rewrite_constants query (Z.of_nat (List.length query)) st locs = Ok st'
          ∧ rewriter_inv st'
          ∧ quer_loc st' ≤ Z.of_nat (List.length query))
  ∨ rewrite_constants query (Z.of_nat (List.length query)) st locs
    = Fail Assert_len_to_wrt.
Proof.
  intros Hall. revert st. induction Hall as [|s locs Hs _ IH]; intros st Hinv Hb; simpl.
  { left. by exists st. }
  destruct (decide (replaced s)) as [Hr|Hr].
  - destruct (Hs Hr) as [Hlen Hend]. destruct Hinv as ((I1&I2)&I3&I4).
    unfold rewrite_constant. case_compare; try lia; [by right|].
    rewrite memcpy_query_inside by lia. simpl. case_compare; try lia.
    apply IH; [|simpl; lia].
    repeat split; simpl; try lia.
    rewrite !length_app, length_take, length_drop, length_app. simpl. lia.
  - rewrite rewrite_constant_ignored by (unfold replaced in Hr; lia). simpl. by apply IH.
Qed.

(** The build without assertion checking does what the build with it does,
    up to the assertion at which that one stops. *)
Lemma release_resolve_lengths query last toks locs :
  -1 ≤ last →
  Forall (λ s, 0 ≤ location s) locs →
  Release.resolve_lengths query last toks locs = resolve_lengths query last toks locs.
Proof.
  intros Hlast Hall. revert last toks Hlast.
  induction Hall as [|s locs Hs _ IH]; intros last toks Hlast; simpl; [done|].
  destruct (Z.ltb_spec (location s) 0); [lia|].
  destruct (Z.leb_spec (location s) last); [by rewrite IH|].
  destruct (lex_constant query (location s) toks) as [[len|] toks']; [|done].
  rewrite IH by lia. done.
Qed.

Lemma release_rewrite_constant query query_len st s :
  Release.rewrite_constant query query_len st s
  = release_result (rewrite_constant query query_len st s).
Proof.
  unfold Release.rewrite_constant, rewrite_constant, Release.memcpy_query.
  destruct (length s <? 0); [done|].
  destruct (location s - last_off st - last_tok_len st <? 0); [done|].
  destruct (memcpy_query _ _ _ _ _) as [chunk|f] eqn:Hm; simpl.
  - by destruct (query_len <? _).
  - unfold memcpy_query in Hm. destruct (_ && _) in Hm; [done|]. by injection Hm as <-.
Qed.

Lemma release_rewrite_constants query query_len st locs :
  Release.rewrite_constants query query_len st locs
  = release_result (rewrite_constants query query_len st locs).
Proof.
  revert st. induction locs as [|s locs IH]; intros st; simpl; [done|].
  rewrite release_rewrite_constant.
  destruct (rewrite_constant query query_len st s) as [st'|f]; simpl; [apply IH|done].
Qed.

Lemma release_rewrite_tail query query_len st :
  Release.rewrite_tail query query_len st
  = release_result (rewrite_tail query query_len st).
Proof.
  unfold Release.rewrite_tail, rewrite_tail, Release.memcpy_query.
  destruct (query_len - quer_loc st <? 0); [done|].
  destruct (memcpy_query _ _ _ _ _) as [chunk|f] eqn:Hm; simpl.
  - by destruct (query_len <? _).
  - unfold memcpy_query in Hm. destruct (_ && _) in Hm; [done|]. by injection Hm as <-.
Qed.

Lemma release_generate_normalized_query scanner_tokens jstate query query_len :
  Forall (λ s, 0 ≤ location s) (entries jstate) →
  Release.generate_normalized_query scanner_tokens jstate query query_len
  = release_result (generate_normalized_query scanner_tokens jstate query query_len).
Proof.
  intros Hall.
  unfold Release.generate_normalized_query, generate_normalized_query,
    Release.fill_in_constant_lengths, fill_in_constant_lengths.
  fold (entries jstate).
  rewrite release_resolve_lengths; [|lia|].
  2: { rewrite sorted_entries_Permutation. exact Hall. }
  destruct (resolve_lengths_total query
              (if 1 <? clocations_count jstate
               then qsort comp_location (entries jstate) else entries jstate)
              (-1) (scanner_tokens query)) as [locs' ->].
  { rewrite sorted_entries_Permutation. exact Hall. }
  simpl. rewrite release_rewrite_constants.
  destruct (rewrite_constants query query_len rewriter_init _) as [st|f]; simpl; [|done].
  apply release_rewrite_tail.
Qed.

(** X6.  On a C string and tokens that lie inside it, for entries recorded
    with locations >= 0 and length -1, [generate_normalized_query] returns,
    the same in both builds, or it meets a negative [len_to_wrt] inside its
    loop: the build with assertion checking stops at the assertion there,
    the build without it calls [memcpy] with that length.  Nothing else goes
    wrong, wherever the locations lie: every other copy and every store is
    inside its buffer, and neither assertion after the loop fails. *)
Theorem generate_normalized_query_safe scanner_tokens jstate query :
  cstring query →
  tokens_wf query (scanner_tokens query) →
  Forall (λ s, length s = -1 ∧ 0 ≤ location s) (entries jstate) →
  (∃ out n,
     generate_normalized_query scanner_tokens jstate query (strlen query) = Ok (out, n)
     ∧ Release.generate_normalized_query scanner_tokens jstate query (strlen query)
       = Ok (out, n))
  ∨ (generate_normalized_query scanner_tokens jstate query (strlen query)
     = Fail Assert_len_to_wrt
     ∧ Release.generate_normalized_query scanner_tokens jstate query (strlen query)
       = Fail Fault_memcpy).
Proof.
  intros Hq Htok Hall.
  rewrite release_generate_normalized_query.
  2: { eapply Forall_impl; [exact Hall|]. simpl. tauto. }
  cut ((∃ out n,
          generate_normalized_query scanner_tokens jstate query (strlen query)
          = Ok (out, n))
       ∨ generate_normalized_query scanner_tokens jstate query (strlen query)
         = Fail Assert_len_to_wrt).
  { intros [(out&n&->)| ->]; [left; by exists out, n|by right]. }
  destruct (fill_in_constant_lengths_total scanner_tokens jstate query) as [jstate' Hf].
  { eapply Forall_impl; [exact Hall|]. simpl. tauto. }
  pose proof (fill_in_constant_lengths_entries _ _ _ _ Hf) as Hr.
  assert (Forall (λ s, length s < 0)
            (if 1 <? clocations_count jstate
             then qsort comp_location (entries jstate) else entries jstate)) as Hall'.
  { rewrite sorted_entries_Permutation. eapply Forall_impl; [exact Hall|]. simpl. lia. }
  pose proof (resolve_lengths_inside query Hq _ _ _ _ _ Htok Hall' Hr) as Hin.
  unfold generate_normalized_query. rewrite Hf. simpl. fold (entries jstate').
  rewrite (strlen_cstring _ Hq) in *.
  destruct (rewrite_constants_safe query rewriter_init (entries jstate') Hin
              rewriter_init_inv) as [(st&->&Hinv&Hb) | ->]; [simpl; lia| |by right].
  left. simpl. by apply rewrite_tail_spans.
Qed.

Lemma generate_normalized_query_safe_witness :
  generate_normalized_query example_scanner misplaced_jstate where_minus_two
    (strlen where_minus_two)
  = Fail Assert_len_to_wrt
  ∧ Release.generate_normalized_query example_scanner misplaced_jstate where_minus_two
      (strlen where_minus_two)
    = Fail Fault_memcpy.
Proof.
  destruct where_minus_two_contract as (Hq&Htok&_&_).
  destruct (generate_normalized_query_safe example_scanner misplaced_jstate
              where_minus_two) as [(out&n&H&_)|H].
  - exact Hq.
  - exact Htok.
  - repeat constructor; simpl; lia.
  - vm_compute in H. discriminate H.
  - exact H.
Defined.

(** The loop on the entries of a text in pieces, from the offset where the
    pieces start: it copies the text in front of every constant and puts a
    [?] for the constant. *)
Lemma rewrite_constants_pieces query rest pieces st :
  rewriter_inv st →
  quer_loc st ≤ Z.of_nat (List.length query) →
  drop (Z.to_nat (quer_loc st)) query = source_of pieces rest →
  Forall (λ p, p.2 ≠ []) pieces →
  ∃ st',
    rewrite_constants query (Z.of_nat (List.length query)) st
      (spans_of (quer_loc st) pieces) = Ok st'
    ∧ rewriter_inv st'
    ∧ quer_loc st' ≤ Z.of_nat (List.length query)
    ∧ norm_query st' ++ drop (Z.to_nat (quer_loc st')) query
      = norm_query st ++ normalized_of pieces rest.
Proof.
  revert st. induction pieces as [|[gap const] pieces IH]; intros st Hinv Hql Hdrop Hne.
  { exists st. simpl in *. split; [done|]. split; [done|]. split; [done|].
    by rewrite Hdrop. }
  apply Forall_cons in Hne as [Hconst Hne]. simpl in Hconst.
  assert (0 < List.length const)%nat as Hclen by (destruct const; simpl; [done|lia]).
  destruct Hinv as ((I1&I2)&I3&I4).
  assert (Z.to_nat (quer_loc st) + List.length gap + List.length const
          ≤ List.length query)%nat as Hfit.
  { apply (f_equal List.length) in Hdrop. rewrite length_drop in Hdrop.
    simpl in Hdrop. rewrite !length_app in Hdrop. lia. }
  cbn [spans_of rewrite_constants]. unfold rewrite_constant. cbn [location length].
  case_compare; try lia.
  rewrite memcpy_query_inside by lia. simpl.
  case_compare; try lia.
  replace (quer_loc st + Z.of_nat (List.length gap) - last_off st - last_tok_len st)
    with (Z.of_nat (List.length gap)) by lia.
  rewrite Nat2Z.id.
  assert (take (List.length gap) (drop (Z.to_nat (quer_loc st)) (query ++ [NUL])) = gap)
    as ->.
  { rewrite drop_app_le by lia. rewrite Hdrop. simpl.
    rewrite <- app_assoc. by rewrite take_app_length. }
  match goal with |- context [rewrite_constants _ _ ?st1 _] => set (st1' := st1) end.
  destruct (IH st1') as (st'&Hst'&Hinv'&Hb'&Hout).
  - subst st1'. repeat split; simpl; try lia.
    rewrite !length_app. simpl. lia.
  - subst st1'. simpl. lia.
  - subst st1'. simpl.
    replace (Z.to_nat (quer_loc st + Z.of_nat (List.length gap)
                       + Z.of_nat (List.length const)))
      with (Z.to_nat (quer_loc st) + (List.length gap + List.length const))%nat by lia.
    rewrite <- drop_drop, Hdrop. simpl.
    rewrite app_assoc, drop_app_length' by (rewrite length_app; lia). done.
  - done.
  - exists st'. subst st1'. simpl in *.
    split; [exact Hst'|]. split; [done|]. split; [done|].
    rewrite Hout. rewrite <- !app_assoc. done.
Qed.

(** X7.  The text that [generate_normalized_query] returns is the source with
    every replaced constant cut out and one [?] in its place, and nothing
    else changed: for a source given as the texts in front of its constants,
    the constants (none empty) and the rest, and entries of length >= 0 that
    are those of the constants, the result is the texts in front of the
    constants with a [?] after each, and the rest.  So it depends on what
    lies outside the constants only. *)
Theorem normalized_text_keeps_the_rest scanner_tokens jstate jstate' pieces rest :
  let query := source_of pieces rest in
  cstring query →
  Forall (λ p, p.2 ≠ []) pieces →
  fill_in_constant_lengths scanner_tokens jstate query = Ok jstate' →
  replaced_spans (entries jstate') = spans_of 0 pieces →
  generate_normalized_query scanner_tokens jstate query (strlen query)
  = Ok (normalized_of pieces rest,
        Z.of_nat (List.length (normalized_of pieces rest))).
Proof.
  intros query Hq Hne Hf Hspans.
  unfold generate_normalized_query. rewrite Hf. simpl. fold (entries jstate').
  rewrite rewrite_constants_replaced, Hspans, (strlen_cstring _ Hq).
  destruct (rewrite_constants_pieces query rest pieces rewriter_init)
    as (st&Hst&Hinv&Hb&Hout); [apply rewriter_init_inv|simpl; lia|done|done|].
  change (quer_loc rewriter_init) with 0 in Hst. rewrite Hst. simpl.
  destruct (rewrite_tail_spans query st Hinv Hb) as (out&n&Ht). rewrite Ht.
  destruct Hinv as ((I1&I2)&I3&I4).
  apply rewrite_tail_Ok in Ht as (Hn&_&_&->); [|done].
  assert (take (Z.to_nat (Z.of_nat (List.length query) - quer_loc st))
            (drop (Z.to_nat (quer_loc st)) (query ++ [NUL]))
          = drop (Z.to_nat (quer_loc st)) query) as Htail.
  { rewrite drop_app_le by lia. rewrite take_app_length' by (rewrite length_drop; lia).
    done. }
  rewrite Htail in Hn |- *. simpl in Hout. rewrite Hout in Hn |- *. by rewrite Hn.
Qed.

Lemma normalized_text_keeps_the_rest_witness :
  generate_normalized_query example_scanner where_jstate where_minus_two
    (strlen where_minus_two)
  = Ok (normalized_where, 11).
Proof.
  apply (normalized_text_keeps_the_rest example_scanner where_jstate
           where_minus_two_filled where_minus_two_pieces []).
  - exact where_minus_two_cstring.
  - repeat constructor. discriminate.
  - exact where_minus_two_fill_in.
  - reflexivity.
Defined.

(** A run of the loop that passes its checks never moves back in the
    source. *)
Lemma rewrite_constants_advances query query_len st locs st' :
  rewrite_constants query query_len st locs = Ok st' →
  quer_loc st = last_off st + last_tok_len st →
  quer_loc st ≤ quer_loc st'.
Proof.
  revert st. induction locs as [|s locs IH]; intros st; simpl.
  { intros [= <-]. lia. }
  destruct (decide (replaced s)) as [Hs|Hs].
  - destruct (rewrite_constant query query_len st s) as [st1|] eqn:H1; [|done]. simpl.
    intros Hrest Hq. unfold replaced in Hs.
    apply rewrite_constant_Ok in H1 as (Hw&_&->&_&_); [|done].
    apply IH in Hrest; simpl in *; lia.
  - rewrite rewrite_constant_ignored by (unfold replaced in Hs; lia). simpl. apply IH.
Qed.

Lemma cstring_chunk query q_loc len :
  cstring query → 0 ≤ q_loc → 0 ≤ len →
  q_loc + len ≤ Z.of_nat (List.length query) →
  cstring (take (Z.to_nat len) (drop (Z.to_nat q_loc) (query ++ [NUL]))).
Proof.
  intros Hq H0 Hlen Hb. rewrite drop_app_le by lia.
  rewrite take_app_le by (rewrite length_drop; lia).
  by apply Forall_take, Forall_drop.
Qed.

(** A run of the loop that ends inside the text has written no zero byte. *)
Lemma rewrite_constants_cstring query query_len st locs st' :
  cstring query →
  rewrite_constants query query_len st locs = Ok st' →
  quer_loc st = last_off st + last_tok_len st →
  quer_loc st' ≤ Z.of_nat (List.length query) →
  cstring (norm_query st) →
  cstring (norm_query st').
Proof.
  intros Hq. revert st. induction locs as [|s locs IH]; intros st; simpl.
  { by intros [= <-]. }
  destruct (decide (replaced s)) as [Hs|Hs].
  - destruct (rewrite_constant query query_len st s) as [st1|] eqn:H1; [|done]. simpl.
    intros Hrest Hinv Hb Hc. unfold replaced in Hs.
    apply rewrite_constant_Ok in H1 as (Hw&_&->&Hq0&_); [|done].
    pose proof (rewrite_constants_advances _ _ _ _ _ Hrest) as Hadv. simpl in Hadv.
    apply (IH _ Hrest); simpl; [lia|done|].
    apply Forall_app. split; [done|]. apply Forall_app. split.
    + apply cstring_chunk; [done|done|lia|lia].
    + by repeat constructor.
  - rewrite rewrite_constant_ignored by (unfold replaced in Hs; lia). simpl. apply IH.
Qed.

Lemma generate_normalized_query_cstring scanner_tokens jstate query out n :
  cstring query →
  generate_normalized_query scanner_tokens jstate query (strlen query) = Ok (out, n) →
  cstring out ∧ n = Z.of_nat (List.length out).
Proof.
  intros Hq. unfold generate_normalized_query.
  destruct (fill_in_constant_lengths scanner_tokens jstate query) as [jstate'|]; [|done].
  simpl. fold (entries jstate').
  destruct (rewrite_constants query (strlen query) rewriter_init (entries jstate'))
    as [st|] eqn:Hst; [|done].
  simpl. intros Ht.
  destruct (rewrite_account _ _ _ _ _ _ Hst Ht) as (Hn&_&_). split; [|done].
  apply rewrite_constants_account in Hst as Hacc; [|done..]. destruct Hacc as (A1&A2&_).
  rewrite (strlen_cstring _ Hq) in *.
  revert Ht. unfold rewrite_tail.
  destruct (Z.ltb_spec (Z.of_nat (List.length query) - quer_loc st) 0); [done|].
  destruct (memcpy_query _ _ _ _ _) as [chunk|] eqn:Hm; [|done].
  apply memcpy_query_Ok in Hm as [(M1&M2&M3&M4) ->]. simpl.
  destruct (Z.ltb_spec (Z.of_nat (List.length query))
              (n_quer_loc st + (Z.of_nat (List.length query) - quer_loc st))); [done|].
  intros [= <- _].
  apply Forall_app. split.
  - eapply rewrite_constants_cstring; [done|exact Hst|done|lia|constructor].
  - apply cstring_chunk; [done|done|lia|lia].
Qed.

(** X8.  For a C string as source, the text that [generate_normalized_query]
    returns holds no zero byte and has the length that the function reports
    in [*query_len_p]; so the string that [pg_query_normalize] returns is
    this text, whole. *)
Theorem normalized_text_is_c_string junk scanner_tokens raw_parser input tree
    r jstate out n :
  cstring input →
  raw_parser input = inr tree →
  const_record_walker junk tree (jstate_init junk) = Ok (pg_return r, jstate) →
  generate_normalized_query scanner_tokens jstate input (strlen input)
  = Ok (out, n) →
  cstring out
  ∧ n = Z.of_nat (List.length out)
  ∧ pg_query_normalize junk scanner_tokens raw_parser input = Returns out.
Proof.
  intros Hq Hp Hw Hg.
  destruct (generate_normalized_query_cstring _ _ _ _ _ Hq Hg) as [Hc Hn].
  split; [done|]. split; [done|].
  unfold pg_query_normalize. rewrite Hp, Hw, Hg. f_equal. unfold rb_tainted_str_new_cstr.
  rewrite (strlen_cstring _ Hc), Nat2Z.id. by rewrite take_ge.
Qed.

Lemma normalized_text_is_c_string_witness :
  cstring normalized_where
  ∧ 11 = Z.of_nat (List.length normalized_where)
  ∧ pg_query_normalize example_junk example_scanner (example_parser where_tree)
      where_minus_two
    = Returns normalized_where.
Proof.
  apply (normalized_text_is_c_string example_junk example_scanner
           (example_parser where_tree) where_minus_two where_tree false where_jstate
           normalized_where 11).
  - exact where_minus_two_cstring.
  - reflexivity.
  - reflexivity.
  - vm_compute. reflexivity.
Defined.

(** ** The collector *)

(** X9.  After the walk of a tree with [m] constants, at most the 2^26 that
    the array can hold, from the working state that [pg_query_normalize]
    sets up, the capacity of the array is 32 doubled some number of times,
    and it is 32 or less than [2 * m]: the array is never more than twice as
    large as needed; and it has as many cells as the capacity says. *)
Theorem capacity_at_most_doubled junk tree :
  let m := Z.of_nat (List.length (constants_of_children [tree])) in
  m ≤ 2 ^ 26 →
  ∃ jstate,
    const_record_walker junk tree (jstate_init junk) = Ok (pg_return false, jstate)
    ∧ (∃ k : nat, clocations_buf_size jstate = 32 * 2 ^ Z.of_nat k)
    ∧ (clocations_buf_size jstate = 32 ∨ clocations_buf_size jstate < 2 * m)
    ∧ clocations_buf_size jstate ≤ Z.max 32 (2 * m)
    ∧ Z.of_nat (List.length (clocations jstate)) = clocations_buf_size jstate.
Proof.
  intros m Hroom.
  destruct (const_record_walker_spec junk tree (jstate_init junk)) as (jstate&Hr&Hw);
    [apply jstate_init_inv|change (clocations_count (jstate_init junk)) with 0; lia|].
  destruct (record_constants_inv junk (constants_of_children [tree]) (jstate_init junk))
    as (j&Hj&(_&_&Hl)&Hcount&_);
    [apply jstate_init_inv|change (clocations_count (jstate_init junk)) with 0; lia|].
  rewrite Hr in Hj. injection Hj as <-.
  change (clocations_count (jstate_init junk)) with 0 in Hcount.
  assert (capacity_bounded jstate) as [Hk Hb].
  { eapply record_constants_capacity;
      [apply jstate_init_inv| |apply jstate_init_capacity|exact Hr].
    change (clocations_count (jstate_init junk)) with 0. lia. }
  fold m in Hcount. rewrite Hcount, Z.add_0_l in Hb.
  exists jstate. split; [done|]. split; [done|]. split; [done|]. split; [lia|done].
Qed.

Lemma capacity_at_most_doubled_witness :
  ∃ jstate,
    const_record_walker example_junk where_tree_twice (jstate_init example_junk)
    = Ok (pg_return false, jstate)
    ∧ (∃ k : nat, clocations_buf_size jstate = 32 * 2 ^ Z.of_nat k)
    ∧ (clocations_buf_size jstate = 32 ∨ clocations_buf_size jstate < 2 * 2)
    ∧ clocations_buf_size jstate ≤ Z.max 32 (2 * 2)
    ∧ Z.of_nat (List.length (clocations jstate)) = clocations_buf_size jstate.
Proof.
  apply (capacity_at_most_doubled example_junk where_tree_twice). simpl. lia.
Defined.

(** X10.  A walk appends: from a working state whose count is within its
    capacity, with room below 2^26 entries for the constants of the tree,
    [const_record_walker] returns false and leaves the entries it found,
    followed by the constants of the tree in the order of the walk, each
    with length -1.  So the entries after two walks are those of the first
    followed by those of the second. *)
Theorem const_record_walker_appends junk tree jstate :
  jstate_inv jstate →
  clocations_count jstate + Z.of_nat (List.length (constants_of_children [tree]))
    ≤ 2 ^ 26 →
  ∃ jstate',
    const_record_walker junk tree jstate = Ok (pg_return false, jstate')
    ∧ jstate_inv jstate'
    ∧ clocations_count jstate'
      = clocations_count jstate + Z.of_nat (List.length (constants_of_children [tree]))
    ∧ entries jstate'
      = entries jstate ++ map unresolved (constants_of_children [tree]).
Proof.
  intros Hinv Hroom.
  destruct (const_record_walker_spec junk tree jstate Hinv Hroom) as (jstate'&Hr&Hw).
  destruct (record_constants_inv junk (constants_of_children [tree]) jstate Hinv Hroom)
    as (j&Hj&H1&H2&H3).
  rewrite Hr in Hj. injection Hj as <-. by exists jstate'.
Qed.

Lemma const_record_walker_appends_witness :
  ∃ jstate',
    const_record_walker example_junk (Some tree_with_failure) where_jstate
    = Ok (pg_return false, jstate')
    ∧ jstate_inv jstate'
    ∧ clocations_count jstate' = 1 + 2
    ∧ entries jstate' = entries where_jstate ++ map unresolved [3; 10].
Proof.
  apply (const_record_walker_appends example_junk (Some tree_with_failure) where_jstate).
  - unfold jstate_inv. simpl. lia.
  - simpl. lia.
Defined.

(** X12.  The working state that [pg_query_normalize] sets up has its count
    within its capacity.  An append to a state that has it so, while the
    count is below 2^26, stores the new entry (the location, length -1)
    inside the allocated array, at the index of the old count, after doubling
    the capacity when the count had reached it; it leaves the entries before
    it in place, and the count is within the capacity again.  So it is after
    the walk of every tree with at most 2^26 constants, and the entries below
    the count are the constants recorded. *)
Theorem count_within_capacity :
  (∀ junk, jstate_inv (jstate_init junk))
  ∧ (∀ junk jstate loc,
       jstate_inv jstate →
       clocations_count jstate < 2 ^ 26 →
       ∃ jstate',
         record_constant junk jstate loc = Ok (pg_return (), jstate')
         ∧ jstate_inv jstate'
         ∧ clocations_count jstate' = clocations_count jstate + 1
         ∧ (Z.to_nat (clocations_count jstate) < List.length (clocations jstate'))%nat
         ∧ clocations jstate' !! Z.to_nat (clocations_count jstate)
           = Some (unresolved loc)
         ∧ take (Z.to_nat (clocations_count jstate)) (clocations jstate')
           = take (Z.to_nat (clocations_count jstate)) (clocations jstate)
         ∧ clocations_buf_size jstate' =
             (if clocations_buf_size jstate <=? clocations_count jstate
              then 2 * clocations_buf_size jstate else clocations_buf_size jstate))
  ∧ (∀ junk tree,
       Z.of_nat (List.length (constants_of_children [tree])) ≤ 2 ^ 26 →
       ∃ jstate,
         const_record_walker junk tree (jstate_init junk) = Ok (pg_return false, jstate)
         ∧ jstate_inv jstate
         ∧ clocations_count jstate
           = Z.of_nat (List.length (constants_of_children [tree]))
         ∧ entries jstate = map unresolved (constants_of_children [tree])).
Proof.
  split; [apply jstate_init_inv|]. split.
  - apply record_constant_inv.
  - apply const_record_walker_entries.
Qed.

Lemma count_within_capacity_witness :
  (∃ jstate',
     record_constant example_junk full_jstate 99 = Ok (pg_return (), jstate')
     ∧ jstate_inv jstate'
     ∧ clocations_buf_size jstate' = 64)
  ∧ ∃ jstate,
      const_record_walker example_junk where_tree_twice (jstate_init example_junk)
      = Ok (pg_return false, jstate)
      ∧ entries jstate = [unresolved 10; unresolved 10].
Proof.
  destruct count_within_capacity as (_&Happend&Hwalk).
  split.
  - destruct (Happend example_junk full_jstate 99) as (jstate'&H1&H2&_&_&_&_&H3).
    + unfold jstate_inv. simpl. lia.
    + simpl. lia.
    + exists jstate'. split; [exact H1|]. split; [exact H2|exact H3].
  - destruct (Hwalk example_junk where_tree_twice) as (jstate&H1&_&_&H2).
    + simpl. lia.
    + exists jstate. split; [exact H1|exact H2].
Defined.

(** ** pg_query_raw_parse *)

Lemma strlen_le s : strlen s ≤ Z.of_nat (List.length s).
Proof. induction s as [|c s IH]; simpl; [done|]. destruct (Ascii.eqb c NUL); lia. Qed.

Lemma cstring_take_strlen s : cstring (take (Z.to_nat (strlen s)) s).
Proof.
  induction s as [|c s IH]; simpl; [constructor|].
  destruct (Ascii.eqb_spec c NUL) as [->|Hc]; [constructor|].
  pose proof (strlen_nonneg s).
  replace (Z.to_nat (1 + strlen s)) with (S (Z.to_nat (strlen s))) by lia.
  simpl. by constructor.
Qed.

Lemma strlen_app_zeros s n :
  (0 < n)%nat → strlen (s ++ replicate n NUL) = strlen s.
Proof.
  intros Hn. induction s as [|c s IH]; simpl.
  - by destruct n; [lia|].
  - destruct (Ascii.eqb c NUL); [done|]. by rewrite IH.
Qed.

(** The text caught from stderr: the C string in the buffer after the
    [read]. *)
Lemma stderr_text held :
  rb_tainted_str_new_cstr
    (buffer_after_read (replicate (Z.to_nat (STDERR_BUFFER_LEN + 1)) NUL)
       (read_pipe held STDERR_BUFFER_LEN))
  = rb_tainted_str_new_cstr (take 4096 held).
Proof.
  unfold buffer_after_read, read_pipe, rb_tainted_str_new_cstr.
  change (Z.to_nat (STDERR_BUFFER_LEN + 1)) with 4097%nat.
  change (Z.to_nat STDERR_BUFFER_LEN) with 4096%nat.
  set (bytes := take 4096 held).
  assert (List.length bytes ≤ 4096)%nat as Hlen by (subst bytes; rewrite length_take; lia).
  rewrite length_replicate, drop_replicate.
  rewrite (take_ge (bytes ++ _)) by (rewrite length_app, length_replicate; lia).
  rewrite strlen_app_zeros by lia.
  pose proof (strlen_le bytes). pose proof (strlen_nonneg bytes).
  by rewrite take_app_le by lia.
Qed.

(** X11.  When [pg_query_raw_parse] returns, the pipe opened, no write to it
    blocked, and the parser and [nodeToString] both returned; the first text
    of the result is the text of the tree up to its first zero byte.  The
    text caught from stderr is never longer than [STDERR_BUFFER_LEN] (4096)
    bytes; it is a beginning of what the parser and [nodeToString] wrote to
    stderr, without a zero byte; and it is all they wrote when that is at
    most 4096 bytes without a zero byte. *)
Theorem raw_parse_stderr_bounded raw_parser nodeToString pipe_fails stderr_written
    stderr_blocks input tree_text stderr_text :
  pg_query_raw_parse raw_parser nodeToString pipe_fails stderr_written stderr_blocks
    input
  = RawReturns tree_text stderr_text →
  (pipe_fails = false ∧ stderr_blocks input = false
   ∧ ∃ tree str,
       raw_parser input = inr tree ∧ nodeToString tree = inr str
       ∧ tree_text = rb_tainted_str_new_cstr str)
  ∧ Z.of_nat (List.length stderr_text) ≤ STDERR_BUFFER_LEN
  ∧ stderr_text `prefix_of` stderr_written input
  ∧ cstring stderr_text
  ∧ (cstring (stderr_written input) →
     Z.of_nat (List.length (stderr_written input)) ≤ STDERR_BUFFER_LEN →
     stderr_text = stderr_written input).
Proof.
  unfold pg_query_raw_parse. destruct pipe_fails; [done|].
  destruct (stderr_blocks input); [done|].
  destruct (raw_parser input) as [e|tree]; [done|].
  destruct (nodeToString tree) as [e|str] eqn:Hstr; [done|].
  intros [= <- <-]. rewrite stderr_text. unfold rb_tainted_str_new_cstr.
  split; [|split; [|split; [|split]]].
  - split; [done|]. split; [done|]. by exists tree, str.
  - rewrite !length_take. unfold STDERR_BUFFER_LEN. lia.
  - rewrite take_take. apply prefix_take.
  - apply cstring_take_strlen.
  - intros Hc Hlen. unfold STDERR_BUFFER_LEN in Hlen.
    rewrite (take_ge (stderr_written input)) by lia.
    rewrite (strlen_cstring _ Hc), Nat2Z.id. by rewrite take_ge.
Qed.

Lemma raw_parse_stderr_bounded_witness :
  Z.of_nat (List.length (example_stderr where_one)) ≤ STDERR_BUFFER_LEN
  ∧ example_stderr where_one `prefix_of` example_stderr where_one.
Proof.
  destruct (raw_parse_stderr_bounded (example_parser where_tree) example_nodeToString
              false example_stderr pipe_has_room where_one
              (list_ascii_of_string "({SELECT})") (example_stderr where_one))
    as (_&H1&H2&_).
  - vm_compute. reflexivity.
  - split; [exact H1|exact H2].
Defined.
